(** * Finite automata: loader, word simulation and subset construction

    A shallow embedding of [src/automata.py] (functions [load_automata],
    [process] and [convert_to_dfa]) together with the properties that its
    specification states about them.

    Python values are modelled as follows.
    - [str] is [string], a sequence of bytes: the comparison of two strings
      is the lexicographic one on bytes, which on UTF-8 text is Python's
      comparison by code point, and a character is a byte, which is exact
      on ASCII text (the names [q0], [q1], ... and the separators are).
    - a [list] is a [list]; a [dict] is an association list kept in
      insertion order, because the source iterates over dictionaries
      ([for origin in transitions], [list(new_states.values())]) and Python
      dictionaries iterate in insertion order.
    - a [set] is a duplicate-free [list]. Python leaves the order of a set
      unspecified; where the source turns one into a list
      ([list(dfa_final_states)]) the model lists it in insertion order, and
      the properties below use membership only.
    - an exception is the [Raise] case of the result type [res]. *)

From Stdlib Require Import String Ascii.
From stdpp Require Import base list strings sorting pretty.

Set Warnings "-clear-no-such-hyp".

(** ** Python runtime *)

Module Py.

Inductive exn : Type :=
| ValueError (msg : string)
| IndexError.

Inductive res (A : Type) : Type :=
| Ok (a : A)
| Raise (e : exn).
Arguments Ok {A} a.
Arguments Raise {A} e.

Definition bind {A B} (m : res A) (k : A → res B) : res B :=
  match m with
  | Ok a => k a
  | Raise e => Raise e
  end.

(** *** Dictionaries with string keys, in insertion order *)

Abbreviation dict V := (list (string * V)).

(** [d[k]] when [k in d]. *)
Fixpoint dget {V} (k : string) (d : dict V) : option V :=
  match d with
  | [] => None
  | (k', v) :: d' => if decide (k' = k) then Some v else dget k d'
  end.

(** [d[k] = v]: an existing key keeps its position, a new one goes last. *)
Fixpoint dset {V} (k : string) (v : V) (d : dict V) : dict V :=
  match d with
  | [] => [(k, v)]
  | (k', v') :: d' =>
      if decide (k' = k) then (k, v) :: d' else (k', v') :: dset k v d'
  end.

Definition keys {V} (d : dict V) : list string := d.*1.
Definition values {V} (d : dict V) : list V := d.*2.

(** *** Sets of strings *)

Definition pyset : Type := list string.

(** [s.add(x)] *)
Definition add (x : string) (s : pyset) : pyset :=
  if decide (x ∈ s) then s else s ++ [x].

(** [s.update(xs)] *)
Definition update (xs : list string) (s : pyset) : pyset :=
  foldl (λ acc x, add x acc) s xs.

(** *** Strings *)

(** [str.isspace] on one character. The blanks of the ASCII range are
    the ones modelled; a byte above 127 is never blank. *)
Definition isspace (c : ascii) : bool :=
  match c with
  | "009" | "010" | "011" | "012" | "013"
  | "028" | "029" | "030" | "031" | " " => true
  | _ => false
  end%char.

Fixpoint lstrip (s : string) : string :=
  match s with
  | "" => ""
  | String c s' => if isspace c then lstrip s' else s
  end.

(** [s.strip()] *)
Definition strip (s : string) : string :=
  String.rev (lstrip (String.rev (lstrip s))).

Fixpoint split_go (cur : option string) (s : string) : list string :=
  match s with
  | "" => option_list (String.rev <$> cur)
  | String c s' =>
      if isspace c
      then option_list (String.rev <$> cur) ++ split_go None s'
      else split_go (Some (String c (default "" cur))) s'
  end.

(** [s.split()]: the maximal runs of non-blank characters. *)
Definition split (s : string) : list string := split_go None s.

Fixpoint split_on_go (sep : ascii) (cur : string) (s : string) : list string :=
  match s with
  | "" => [String.rev cur]
  | String c s' =>
      if decide (c = sep)
      then String.rev cur :: split_on_go sep "" s'
      else split_on_go sep (String c cur) s'
  end.

(** [s.split(sep)] for a one-character separator: [''.split(',')] is
    [['']], and two adjacent separators delimit an empty field. *)
Definition split_on (sep : ascii) (s : string) : list string :=
  split_on_go sep "" s.

(** [sep.join(l)] *)
Definition join (sep : string) (l : list string) : string :=
  String.concat sep l.

(** [sorted(l)] on strings. *)
Definition sorted (l : list string) : list string :=
  merge_sort String.le l.

(** Iterating over a [str] yields its characters as one-character strings. *)
Fixpoint chars (s : string) : list string :=
  match s with
  | "" => []
  | String c s' => String c "" :: chars s'
  end.

(** The two operations the source applies to a transition's value, [v[0]]
    and iteration, exist on lists and on strings alike. *)
Class Seq (V : Type) : Type := {
  getitem0 : V → res string;
  iter : V → list string
}.

#[export] Instance list_seq : Seq (list string) := {|
  getitem0 l := match l with [] => Raise IndexError | x :: _ => Ok x end;
  iter l := l
|}.

#[export] Instance str_seq : Seq string := {|
  getitem0 s := match s with "" => Raise IndexError | String c _ => Ok (String c "") end;
  iter s := chars s
|}.

End Py.
Import Py.

(** ** The automaton value

    The dictionary built by [load_automata] and by [convert_to_dfa]:
    [transitions] maps an origin to a dictionary from symbols to a value of
    type [V], a list of destinations in the loader's output and a single
    name in the converter's. *)

Record automaton (V : Type) : Type := Automaton {
  alphabet : list string;
  states : list string;
  final_states : list string;
  initial_state : string;
  transitions : dict (dict V)
}.
Arguments Automaton {V}.
Arguments alphabet {V}.
Arguments states {V}.
Arguments final_states {V}.
Arguments initial_state {V}.
Arguments transitions {V}.

(** ** [load_automata] *)

Module Loader.

Definition msg_format : string := "Formato de transição inválido.".
Definition msg_initial : string :=
  "Estado inicial não está presente no conjunto de estados.".
Definition msg_final : string :=
  "Estado final não está presente no conjunto de estados.".
Definition msg_origin : string :=
  "Transição parte de estado que não está no conjunto de estados.".
Definition msg_symbol : string := "Transição utiliza símbolo inválido.".
Definition msg_destination : string :=
  "Transição leva a estado que não está no conjunto de estados.".
Definition msg_prefix : string := "Erro ao ler o arquivo: ".

(** [file.readline()]: the next line, or [''] at the end of the file. *)
Definition readline (file : list string) : string * list string :=
  match file with
  | [] => ("", [])
  | line :: rest => (line, rest)
  end.

(** Lines 46 to 50: one rule appended to the table. *)
Definition add_rule (origin symbol destination : string)
    (transitions : dict (dict (list string))) : dict (dict (list string)) :=
  let transitions :=
    match dget origin transitions with
    | None => dset origin [] transitions
    | Some _ => transitions
    end in
  let row := default [] (dget origin transitions) in
  let row :=
    match dget symbol row with
    | None => dset symbol [] row
    | Some _ => row
    end in
  let dests := default [] (dget symbol row) in
  dset origin (dset symbol (dests ++ [destination]) row) transitions.

(** Lines 41 to 50: [for line in file]. *)
Fixpoint read_rules (lines : list string)
    (transitions : dict (dict (list string))) : res (dict (dict (list string))) :=
  match lines with
  | [] => Ok transitions
  | line :: rest =>
      match split (strip line) with
      | [origin; symbol; destination] =>
          read_rules rest (add_rule origin symbol destination transitions)
      | _ => Raise (ValueError msg_format)
      end
  end.

(** Lines 54 to 56. *)
Fixpoint check_finals (final_states states : list string) : res unit :=
  match final_states with
  | [] => Ok ()
  | final_state :: rest =>
      if decide (final_state ∈ states) then check_finals rest states
      else Raise (ValueError msg_final)
  end.

(** Lines 63 to 65. *)
Fixpoint check_destinations (dests states : list string) : res unit :=
  match dests with
  | [] => Ok ()
  | destination :: rest =>
      if decide (destination ∈ states) then check_destinations rest states
      else Raise (ValueError msg_destination)
  end.

(** Lines 60 to 65. *)
Fixpoint check_row (row : dict (list string)) (alphabet states : list string)
    : res unit :=
  match row with
  | [] => Ok ()
  | (symbol, dests) :: rest =>
      if decide (symbol ∈ alphabet) then
        bind (check_destinations dests states)
             (λ _, check_row rest alphabet states)
      else Raise (ValueError msg_symbol)
  end.

(** Lines 57 to 65. *)
Fixpoint check_transitions (transitions : dict (dict (list string)))
    (alphabet states : list string) : res unit :=
  match transitions with
  | [] => Ok ()
  | (origin, row) :: rest =>
      if decide (origin ∈ states) then
        bind (check_row row alphabet states)
             (λ _, check_transitions rest alphabet states)
      else Raise (ValueError msg_origin)
  end.

(** Lines 35 to 73, the body of the [try]. *)
Definition load_body (file : list string) : res (automaton (list string)) :=
  let '(line, file) := readline file in
  let alphabet := split (strip line) in
  let '(line, file) := readline file in
  let states := split (strip line) in
  let '(line, file) := readline file in
  let final_states := split (strip line) in
  let '(line, file) := readline file in
  let initial_state := strip line in
  bind (read_rules file []) (λ transitions,
  if decide (initial_state ∈ states) then
    bind (check_finals final_states states) (λ _,
    bind (check_transitions transitions alphabet states) (λ _,
    Ok (Automaton alphabet states final_states initial_state transitions)))
  else Raise (ValueError msg_initial)).

(** [load_automata], on the lines of the opened file. The handler of line
    74 re-raises a [ValueError] with the prefixed message. *)
Definition load_automata (file : list string) : res (automaton (list string)) :=
  match load_body file with
  | Raise (ValueError e) => Raise (ValueError (msg_prefix +:+ e))
  | r => r
  end.

End Loader.
Import Loader.

(** ** [process] *)

Module Simulator.
Section process.
Context {V : Type} `{!Seq V}.

(** State of the loop over one word: [current_state], [is_valid] and the
    shared [results] list. *)
Definition loop_state : Type := string * bool * list string.

(** Lines 88 to 99: [for symbol in word], with its two [break]s. *)
Fixpoint for_symbols (automata : automaton V) (word : list string)
    (current_state : string) (results : list string) : res loop_state :=
  match word with
  | [] => Ok (current_state, true, results)
  | symbol :: rest =>
      if decide (symbol ∈ alphabet automata) then
        match dget current_state (transitions automata) with
        | Some row =>
            match dget symbol row with
            | Some v =>
                bind (getitem0 v) (λ next_state,
                for_symbols automata rest next_state results)
            | None => Ok (current_state, false, results ++ ["REJEITA"])
            end
        | None => Ok (current_state, false, results ++ ["REJEITA"])
        end
      else Ok (current_state, false, results ++ ["INVALIDA"])
  end.

(** Lines 101 to 105: what is appended once the inner loop has ended. *)
Definition conclude (automata : automaton V) (st : loop_state)
    : res (list string) :=
  let '(current_state, is_valid, results) := st in
  if is_valid then
    if decide (current_state ∈ final_states automata)
    then Ok (results ++ ["ACEITA"])
    else Ok (results ++ ["REJEITA"])
  else Ok results.

(** Lines 85 to 105: one iteration of [for word in words]. *)
Definition process_word (automata : automaton V) (word : list string)
    (results : list string) : res (list string) :=
  bind (for_symbols automata word (initial_state automata) results)
       (conclude automata).

Fixpoint for_words (automata : automaton V) (words : list (list string))
    (results : list string) : res (list string) :=
  match words with
  | [] => Ok results
  | word :: rest =>
      bind (process_word automata word results)
           (λ results, for_words automata rest results)
  end.

Definition process (automata : automaton V) (words : list (list string))
    : res (list string) :=
  for_words automata words [].

End process.
End Simulator.
Import Simulator.

(** ** [convert_to_dfa]

    No statement of [convert_to_dfa] can raise on an automaton of the type
    above: every lookup is guarded by a test of membership or follows the
    assignment that creates its key. Its model therefore returns no
    exception; what it has to account for is the [while] loop, which is
    run with a bound on its iterations. *)

Module Converter.

(** The variables of [convert_to_dfa] that its loop changes. The worklist
    [states_to_process] is kept with its last element first: [pop()] takes
    the head and [append] conses. *)
Record conv_state : Type := ConvState {
  new_states : dict string;
  state_counter : nat;
  dfa_transitions : dict (dict string);
  dfa_final_states : pyset;
  states_to_process : list string;
  processed_states : pyset
}.

(** [f'q{state_counter}'] *)
Definition fresh_name (state_counter : nat) : string :=
  "q" +:+ pretty state_counter.

(** The key under which a collection of state names is memoised, line 118. *)
Definition key_of (states_set : list string) : string :=
  join "," (sorted states_set).

(** Lines 116 to 122: the closure [get_state_name], with the two variables
    it captures and changes passed in and out. *)
Definition get_state_name (states_set : list string)
    (new_states : dict string) (state_counter : nat)
    : string * dict string * nat :=
  let name := key_of states_set in
  match dget name new_states with
  | Some id => (id, new_states, state_counter)
  | None =>
      (fresh_name state_counter,
       dset name (fresh_name state_counter) new_states,
       S state_counter)
  end.

Section convert.
Context {V : Type} `{!Seq V}.

(** Lines 139 to 142: the set [next_states] for one symbol. *)
Definition gather (automata : automaton V) (current_states : list string)
    (symbol : string) : pyset :=
  foldl (λ next_states state,
           match dget state (transitions automata) with
           | Some row =>
               match dget symbol row with
               | Some v => update (iter v) next_states
               | None => next_states
               end
           | None => next_states
           end)
        [] current_states.

(** Lines 139 to 148: the body of [for symbol in automata["alphabet"]].
    [dfa_transitions[current]] exists when line 146 runs, line 136 having
    stored it. *)
Definition symbol_step (automata : automaton V) (current : string)
    (current_states : list string) (st : conv_state) (symbol : string)
    : conv_state :=
  match gather automata current_states symbol with
  | [] => st
  | next_states =>
      let '(next_state_name, new_states', counter') :=
        get_state_name next_states (new_states st) (state_counter st) in
      let row := default [] (dget current (dfa_transitions st)) in
      ConvState new_states' counter'
        (dset current (dset symbol next_state_name row) (dfa_transitions st))
        (dfa_final_states st)
        (if decide (next_state_name ∈ processed_states st)
         then states_to_process st
         else next_state_name :: states_to_process st)
        (processed_states st)
  end.

(** Lines 129 to 148: one iteration of the [while], [current] having been
    popped and [stack] being what is left. *)
Definition iteration (automata : automaton V) (current : string)
    (stack : list string) (st : conv_state) : conv_state :=
  let processed := add current (processed_states st) in
  let finals :=
    if existsb (λ state, bool_decide (state ∈ final_states automata))
               (split_on "," current)
    then add current (dfa_final_states st)
    else dfa_final_states st in
  let current_states := split_on "," current in
  let st := ConvState (new_states st) (state_counter st)
              (dset current [] (dfa_transitions st))
              finals stack processed in
  foldl (symbol_step automata current current_states) st (alphabet automata).

(** Lines 128 to 148, with a bound on the number of iterations. *)
Fixpoint while_loop (fuel : nat) (automata : automaton V) (st : conv_state)
    : option conv_state :=
  match states_to_process st with
  | [] => Some st
  | current :: stack =>
      match fuel with
      | 0 => None
      | S fuel => while_loop fuel automata (iteration automata current stack st)
      end
  end.

(** Lines 111 to 126: the state in which the loop is entered. The initial
    state is the only key, so its identifier is [q0]. *)
Definition initial_conv_state (automata : automaton V) : conv_state :=
  let '(initial_state, new_states, counter) :=
    get_state_name [initial_state automata] [] 0 in
  ConvState new_states counter [] [] [initial_state] [].

(** Lines 150 to 156. *)
Definition result (automata : automaton V) (initial_state : string)
    (st : conv_state) : automaton string :=
  Automaton (alphabet automata)
    (values (new_states st))
    (dfa_final_states st)
    initial_state
    (dfa_transitions st).

Definition convert_with_fuel (fuel : nat) (automata : automaton V)
    : option (automaton string) :=
  let '(initial_state, _, _) :=
    get_state_name [initial_state automata] [] 0 in
  st ← while_loop fuel automata (initial_conv_state automata);
  Some (result automata initial_state st).

(** Every state name that iterating over a transition's value can yield. *)
Definition all_destinations (automata : automaton V) : list string :=
  remove_dups
    (transitions automata ≫= λ '(_, row), row ≫= λ '(_, v), iter v).

(** A number of iterations that the loop never exceeds. *)
Definition fuel_bound (automata : automaton V) : nat :=
  1 + length (alphabet automata) * 2 ^ length (all_destinations automata).

Definition convert_to_dfa (automata : automaton V) : option (automaton string) :=
  convert_with_fuel (fuel_bound automata) automata.

End convert.
End Converter.
Import Converter.

(** ** Notions of the specification *)

Module Spec.

(** The destination states that a transition's value stands for: the
    elements of a list, and the name itself when the value is one name. *)
Class Destinations (V : Type) : Type := destinations_of : V → list string.
#[export] Instance list_destinations : Destinations (list string) := λ l, l.
#[export] Instance str_destinations : Destinations string := λ s, [s].

(** The four structural invariants of an automaton. *)
Record invariants {V} `{!Destinations V} (a : automaton V) : Prop := {
  inv_initial : initial_state a ∈ states a;
  inv_final : ∀ f, f ∈ final_states a → f ∈ states a;
  inv_origin : ∀ o row, (o, row) ∈ transitions a → o ∈ states a;
  inv_destination : ∀ o row s v d,
    (o, row) ∈ transitions a → (s, v) ∈ row → d ∈ destinations_of v →
    d ∈ states a;
  inv_symbol : ∀ o row s v,
    (o, row) ∈ transitions a → (s, v) ∈ row → s ∈ alphabet a
}.

(** An automaton of the data model: every entry of the transition table
    holds a non-empty sequence of destinations. *)
Definition valid (a : automaton (list string)) : Prop :=
  ∀ o row s l, (o, row) ∈ transitions a → (s, l) ∈ row → l ≠ [].

(** The transition relation that the table stands for. *)
Definition delta {V} `{!Destinations V} (a : automaton V)
    (o s d : string) : Prop :=
  ∃ row v, (o, row) ∈ transitions a ∧ (s, v) ∈ row ∧ d ∈ destinations_of v.

Inductive outcome : Type := ACCEPTED | REJECTED | INVALID.

Definition tag (o : outcome) : string :=
  match o with
  | ACCEPTED => "ACEITA"
  | REJECTED => "REJEITA"
  | INVALID => "INVALIDA"
  end.

(** The destination sequence defined for a state and a symbol, if any. *)
Definition transition (a : automaton (list string)) (q symbol : string)
    : option (list string) :=
  row ← dget q (transitions a); dget symbol row.

(** The classification of a word as the specification words it, from a
    given current state: an unknown symbol is [INVALID] at once, a missing
    transition [REJECTED] at once, otherwise the first destination becomes
    the current state, and at the end of the word membership in the final
    states decides. *)
Fixpoint classify_from (a : automaton (list string)) (q : string)
    (word : list string) : outcome :=
  match word with
  | [] => if decide (q ∈ final_states a) then ACCEPTED else REJECTED
  | symbol :: rest =>
      if decide (symbol ∈ alphabet a) then
        match transition a q symbol with
        | None => REJECTED
        | Some dests => classify_from a (hd q dests) rest
        end
      else INVALID
  end.

Definition classify (a : automaton (list string)) (word : list string)
    : outcome :=
  classify_from a (initial_state a) word.

(** The fields of the file as [load_automata] reads them. *)
Definition line (n : nat) (file : list string) : string :=
  default "" (file !! n).
Definition alphabet_tokens (file : list string) : list string :=
  split (strip (line 0 file)).
Definition states_tokens (file : list string) : list string :=
  split (strip (line 1 file)).
Definition final_tokens (file : list string) : list string :=
  split (strip (line 2 file)).
Definition initial_token (file : list string) : string :=
  strip (line 3 file).
Definition rules (file : list string) : list (list string) :=
  (λ l, split (strip l)) <$> drop 4 file.

(** Every rule line has its three tokens. *)
Definition well_formed (file : list string) : Prop :=
  Forall (λ parts, length parts = 3) (rules file).

(** The four structural conditions on what the file declares; the one on
    the states of a transition is split into origin and destination, as
    the loader's messages are. *)
Definition initial_ok (file : list string) : Prop :=
  initial_token file ∈ states_tokens file.
Definition finals_ok (file : list string) : Prop :=
  ∀ f, f ∈ final_tokens file → f ∈ states_tokens file.
Definition origins_ok (file : list string) : Prop :=
  ∀ o s d, [o; s; d] ∈ rules file → o ∈ states_tokens file.
Definition destinations_ok (file : list string) : Prop :=
  ∀ o s d, [o; s; d] ∈ rules file → d ∈ states_tokens file.
Definition symbols_ok (file : list string) : Prop :=
  ∀ o s d, [o; s; d] ∈ rules file → s ∈ alphabet_tokens file.

End Spec.
Import Spec.

(** ** Auxiliary notions for the proofs *)

Module Table.

(** The rule [o s d] is recorded in the table. *)
Definition has_rule (t : dict (dict (list string))) (o s d : string) : Prop :=
  ∃ l, dget o t ≫= dget s = Some l ∧ d ∈ l.

(** The shape of the tables that [read_rules] builds. *)
Definition table_ok (t : dict (dict (list string))) : Prop :=
  NoDup (keys t) ∧
  ∀ o row, dget o t = Some row →
    NoDup (keys row) ∧ row ≠ [] ∧ ∀ s l, dget s row = Some l → l ≠ [].

End Table.
Import Table.

Module Worklist.

(** All the lists obtained from [l] by dropping some of its elements. *)
Fixpoint sublists {A} (l : list A) : list (list A) :=
  match l with
  | [] => [[]]
  | x :: l => ((x ::.) <$> sublists l) ++ sublists l
  end.

Section worklist.
Context {V : Type} `{!Seq V}.

(** The keys that [get_state_name] can ever be asked for on [automata]. *)
Definition universe (automata : automaton V) : list string :=
  key_of [initial_state automata]
    :: (key_of <$> sublists (all_destinations automata)).

(** What holds of the variables of [convert_to_dfa] whenever the condition
    of its loop is evaluated. *)
Record conv_inv (automata : automaton V) (st : conv_state) : Prop := {
  ci_keys_nodup : NoDup (keys (new_states st));
  ci_values :
    values (new_states st) = fresh_name <$> seq 0 (state_counter st);
  ci_counter : 0 < state_counter st;
  ci_universe : ∀ k, k ∈ keys (new_states st) → k ∈ universe automata;
  ci_stack : ∀ x, x ∈ states_to_process st → x ∈ values (new_states st);
  ci_processed :
    ∀ x, x ∈ processed_states st → x ∈ values (new_states st);
  ci_processed_nodup : NoDup (processed_states st);
  ci_finals : ∀ x, x ∈ dfa_final_states st → x ∈ processed_states st;
  ci_origins_nodup : NoDup (keys (dfa_transitions st));
  ci_rows : ∀ o row, (o, row) ∈ dfa_transitions st →
    o ∈ processed_states st ∧ NoDup (keys row) ∧
    ∀ s v, (s, v) ∈ row →
      s ∈ alphabet automata ∧ v ∈ values (new_states st)
}.

(** 1 when the top of the worklist has not been processed yet. *)
Definition top_pending (st : conv_state) : nat :=
  match states_to_process st with
  | [] => 0
  | x :: _ => if decide (x ∈ processed_states st) then 0 else 1
  end.

(** A quantity that every iteration of the loop decreases. *)
Definition potential (automata : automaton V) (st : conv_state) : nat :=
  length (states_to_process st)
  + length (alphabet automata)
    * (length (universe automata) - length (processed_states st)
       - top_pending st).

(** The state of the loop after [n] iterations, or at its exit if that comes
    first. *)
Fixpoint run_iterations (n : nat) (automata : automaton V) (st : conv_state)
    : conv_state :=
  match n, states_to_process st with
  | S n, current :: stack =>
      run_iterations n automata (iteration automata current stack st)
  | _, _ => st
  end.

(** The identifiers that one iteration appends to the worklist: what stands
    on it, at the end of the iteration, before what the [pop] had left. *)
Definition pushed (automata : automaton V) (current : string)
    (stack : list string) (st : conv_state) : list string :=
  let worklist := states_to_process (iteration automata current stack st) in
  take (length worklist - length stack) worklist.

(** The identifiers appended to the worklist during the next [n] iterations. *)
Fixpoint enqueued (n : nat) (automata : automaton V) (st : conv_state)
    : list string :=
  match n, states_to_process st with
  | S n, current :: stack =>
      pushed automata current stack st
      ++ enqueued n automata (iteration automata current stack st)
  | _, _ => []
  end.

End worklist.
End Worklist.
Import Worklist.

(** ** Inputs of the examples *)

(** The automaton of the docstring of [load_automata]. *)
Definition example_file : list string :=
  ["a b"; "q0 q1 q2 q3"; "q0 q3"; "q0";
   "q0 a q1"; "q0 b q2"; "q1 a q0"; "q1 b q3";
   "q2 a q3"; "q2 b q0"; "q3 a q1"; "q3 b q2"].

Definition example_automaton : automaton (list string) :=
  Automaton ["a"; "b"] ["q0"; "q1"; "q2"; "q3"] ["q0"; "q3"] "q0"
    [("q0", [("a", ["q1"]); ("b", ["q2"])]);
     ("q1", [("a", ["q0"]); ("b", ["q3"])]);
     ("q2", [("a", ["q3"]); ("b", ["q0"])]);
     ("q3", [("a", ["q1"]); ("b", ["q2"])])].

(** What [convert_to_dfa] returns on it, the final states being listed in
    the order in which the model's set received them. *)
Definition example_dfa : automaton string :=
  Automaton ["a"; "b"] ["q0"; "q1"; "q2"; "q3"] ["q0"; "q3"] "q0"
    [("q0", [("a", "q1"); ("b", "q2")]);
     ("q2", [("a", "q3"); ("b", "q0")]);
     ("q3", [("a", "q1"); ("b", "q2")]);
     ("q1", [("a", "q0"); ("b", "q3")])].

(** A file that names a state and a symbol twice. *)
Definition duplicate_file : list string := ["a a"; "q0 q0"; "q0"; "q0"].

(** An automaton whose states are not named as the converter names its own:
    [A] goes to [B] on [a], and [B] is final. *)
Definition ab_file : list string := ["a"; "A B"; "B"; "A"; "A a B"; "B a B"].

Definition ab_automaton : automaton (list string) :=
  Automaton ["a"] ["A"; "B"] ["B"] "A"
    [("A", [("a", ["B"])]); ("B", [("a", ["B"])])].

(** ** Notions for the further properties *)

(** The characters of a string. *)
Abbreviation characters s := (list_ascii_of_string s).

(** A name as [split()] yields them: not empty, and without a blank. *)
Definition token (x : string) : Prop :=
  x ≠ "" ∧ ∀ c, c ∈ characters x → isspace c = false.

(** The destination that a rule line contributes to the pair of an origin
    and a symbol. *)
Definition rule_destination (o s : string) (parts : list string)
    : option string :=
  match parts with
  | [o'; s'; d] => if decide (o' = o ∧ s' = s) then Some d else None
  | _ => None
  end.

(** The destinations that the rules of a file give to an origin and a
    symbol, in the order of the file. *)
Definition rule_destinations (file : list string) (o s : string)
    : list string :=
  omap (rule_destination o s) (rules file).

(** A file with a rule line of two tokens. *)
Definition short_rule_file : list string :=
  ["a"; "q0"; "q0"; "q0"; "q0 a"].

(** A file in which a state has two rules on one symbol, and one rule twice. *)
Definition nfa_file : list string :=
  ["a b"; "s t u"; "u"; "s"; "s a t"; "s b s"; "s a u"; "t b u"; "s a t"].

(** What [load_automata] returns on [nfa_file]. *)
Definition nfa_automaton : automaton (list string) :=
  Automaton ["a"; "b"] ["s"; "t"; "u"] ["u"] "s"
    [("s", [("a", ["t"; "u"; "t"]); ("b", ["s"])]); ("t", [("b", ["u"])])].

(** An automaton, not one of the loader's, with an empty list of
    destinations. *)
Definition hollow_automaton : automaton (list string) :=
  Automaton ["a"] ["q0"] [] "q0" [("q0", [("a", [])])].

Section memo.
Context {V : Type} `{!Seq V}.

(** Line 132: the test that makes [current] a final state. *)
Definition marks_final (automata : automaton V) (current : string) : bool :=
  existsb (λ state, bool_decide (state ∈ final_states automata))
          (split_on "," current).

(** What holds of the memo, of the rows and of the final states when the
    condition of the loop is evaluated ([busy] is [None]) and between two
    symbols of an iteration ([busy] is the state being processed with the
    symbols already handled). *)
Record conv_memo (automata : automaton V) (st : conv_state)
    (busy : option (string * list string)) : Prop := {
  cm_initial :
    dget (key_of [initial_state automata]) (new_states st)
    = Some (fresh_name 0);
  cm_pending : ∀ x, x ∈ values (new_states st) →
    x ∈ processed_states st ∨ x ∈ states_to_process st;
  cm_rows : ∀ x, x ∈ processed_states st →
    is_Some (dget x (dfa_transitions st));
  cm_finals : ∀ x, x ∈ dfa_final_states st ↔
    x ∈ processed_states st ∧ marks_final automata x = true;
  cm_sound : ∀ o row s id,
    dget o (dfa_transitions st) = Some row → dget s row = Some id →
    s ∈ alphabet automata ∧
    gather automata (split_on "," o) s ≠ [] ∧
    dget (key_of (gather automata (split_on "," o) s)) (new_states st)
    = Some id;
  cm_complete : ∀ o row s,
    dget o (dfa_transitions st) = Some row → dget s row = None →
    s ∈ alphabet automata →
    match busy with
    | Some (current, handled) => o = current → s ∈ handled
    | None => True
    end →
    gather automata (split_on "," o) s = []
}.

End memo.

(** What the proofs use of an automaton that [convert_to_dfa] returns when
    [process] runs on it: [q] is no origin and no final state, and every
    destination is an identifier. *)
Definition converted_shape (dfa : automaton string) : Prop :=
  (∀ o row, (o, row) ∈ transitions dfa → o ≠ "q") ∧
  (∀ o row s v, (o, row) ∈ transitions dfa → (s, v) ∈ row →
     ∃ n, v = fresh_name n) ∧
  "q" ∉ final_states dfa.

(** The first destination that an automaton lists for a state and a symbol:
    [None] when no transition is defined, [Some None] when the list is
    empty. *)
Definition first_destination (a : automaton (list string)) (q s : string)
    : option (option string) :=
  head <$> transition a q s.

(** [nfa_automaton] with the first destination of each list only. *)
Definition nfa_first_automaton : automaton (list string) :=
  Automaton ["a"; "b"] ["s"; "t"; "u"] ["u"] "s"
    [("s", [("a", ["t"]); ("b", ["s"])]); ("t", [("b", ["u"])])].

(** The state that the first destinations lead to along a word, from a
    given state: defined when every symbol of the word is in the alphabet
    and has a transition where it is met. *)
Fixpoint run (a : automaton (list string)) (q : string)
    (word : list string) : option string :=
  match word with
  | [] => Some q
  | symbol :: rest =>
      if decide (symbol ∈ alphabet a) then
        match transition a q symbol with
        | Some (first :: _) => run a first rest
        | _ => None
        end
      else None
  end.

(** ** The runtime functions on small inputs *)

Example split_blanks : split "  q0   q1 " = ["q0"; "q1"].
Proof. reflexivity. Qed.

Example strip_blanks : strip "  q0 q1  " = "q0 q1".
Proof. reflexivity. Qed.

Example split_on_comma : split_on "," "q1,,q2" = ["q1"; ""; "q2"].
Proof. reflexivity. Qed.

Example split_on_empty : split_on "," "" = [""].
Proof. reflexivity. Qed.

Example key_of_sorts : key_of ["q2"; "q10"; "q1"] = "q1,q10,q2".
Proof. vm_compute. reflexivity. Qed.

Example fresh_name_12 : fresh_name 12 = "q12".
Proof. vm_compute. reflexivity. Qed.

Example getitem0_str : getitem0 "q12" = Ok "q".
Proof. reflexivity. Qed.

(** ** The functions on the example of the docstring *)

Example load_example : load_automata example_file = Ok example_automaton.
Proof. vm_compute. reflexivity. Qed.

Example process_example :
  process example_automaton [["a"; "b"]; ["b"; "a"]; ["c"]; []; ["a"]]
  = Ok ["ACEITA"; "ACEITA"; "INVALIDA"; "ACEITA"; "REJEITA"].
Proof. vm_compute. reflexivity. Qed.

Example convert_example :
  convert_to_dfa example_automaton
  = Some example_dfa.
Proof. vm_compute. reflexivity. Qed.

Example load_ab : load_automata ab_file = Ok ab_automaton.
Proof. vm_compute. reflexivity. Qed.

Example convert_ab :
  convert_to_dfa ab_automaton = Some (Automaton ["a"] ["q0"] [] "q0" [("q0", [])]).
Proof. vm_compute. reflexivity. Qed.

Example enqueued_example :
  enqueued 3 example_automaton (initial_conv_state example_automaton)
  = ["q2"; "q1"; "q3"; "q1"].
Proof. vm_compute. reflexivity. Qed.

Example load_nfa : load_automata nfa_file = Ok nfa_automaton.
Proof. vm_compute. reflexivity. Qed.

Example process_hollow : process hollow_automaton [["a"]] = Raise IndexError.
Proof. reflexivity. Qed.

(** * Properties *)

(** ** Dictionaries *)

Section dict_facts.
Context {V : Type}.
Implicit Types (d : dict V) (k : string) (v : V).

Lemma dget_dset_eq k v d : dget k (dset k v d) = Some v.
Proof.
  induction d as [|[k' v'] d IH]; simpl.
  - by rewrite decide_True.
  - destruct (decide (k' = k)) as [->|Hne]; simpl.
    + by rewrite decide_True.
    + by rewrite decide_False.
Qed.

Lemma dget_dset_ne k k' v d : k ≠ k' → dget k' (dset k v d) = dget k' d.
Proof.
  intros Hne. induction d as [|[k0 v0] d IH]; simpl.
  - by rewrite decide_False.
  - destruct (decide (k0 = k)) as [->|Hne0]; simpl.
    + by rewrite !decide_False.
    + by rewrite IH.
Qed.

Lemma dget_None k d : dget k d = None ↔ k ∉ keys d.
Proof.
  unfold keys. induction d as [|[k' v'] d IH]; simpl.
  - split; [intros _; apply not_elem_of_nil | done].
  - rewrite not_elem_of_cons. destruct (decide (k' = k)) as [->|Hne].
    + split; [done | intros [? _]; done].
    + rewrite IH. split; [intros ?; split; [congruence | done] | intros [_ ?]; done].
Qed.

Lemma dget_Some_elem_of k v d : dget k d = Some v → (k, v) ∈ d.
Proof.
  induction d as [|[k' v'] d IH]; simpl; [done|].
  destruct (decide (k' = k)) as [->|Hne].
  - intros [= ->]. apply list_elem_of_here.
  - intros ?. apply list_elem_of_further. auto.
Qed.

Lemma dget_is_Some k d : is_Some (dget k d) ↔ k ∈ keys d.
Proof.
  destruct (dget k d) eqn:Hg.
  - split; [intros _ | eauto].
    destruct (decide (k ∈ keys d)) as [|Hn]; [done|].
    apply dget_None in Hn. congruence.
  - split; [intros [? ?]; done|]. intros Hin. by apply dget_None in Hg.
Qed.

Lemma elem_of_dget k v d : NoDup (keys d) → (k, v) ∈ d → dget k d = Some v.
Proof.
  unfold keys. induction d as [|[k' v'] d IH]; simpl.
  - intros _ Hin. by apply elem_of_nil in Hin.
  - rewrite NoDup_cons. intros [Hk' Hnd] Hin.
    apply elem_of_cons in Hin as [[= -> ->]|Hin].
    + by rewrite decide_True.
    + destruct (decide (k' = k)) as [->|Hne]; [|by apply IH].
      exfalso. apply Hk'. apply list_elem_of_fmap. by exists (k, v).
Qed.

Lemma keys_dset k v d :
  keys (dset k v d) =
    match dget k d with Some _ => keys d | None => keys d ++ [k] end.
Proof.
  unfold keys. induction d as [|[k' v'] d IH]; csimpl; [done|].
  destruct (decide (k' = k)) as [->|Hne]; csimpl; [done|].
  rewrite IH. by destruct (dget k d).
Qed.

Lemma values_dset_fresh k v d :
  dget k d = None → values (dset k v d) = values d ++ [v].
Proof.
  unfold values. induction d as [|[k' v'] d IH]; csimpl; [done|].
  destruct (decide (k' = k)) as [->|Hne]; csimpl; [done|].
  intros Hg. by rewrite IH.
Qed.

Lemma length_dset_fresh k v d :
  dget k d = None → length (dset k v d) = S (length d).
Proof.
  induction d as [|[k' v'] d IH]; simpl; [done|].
  destruct (decide (k' = k)) as [->|Hne]; simpl; [done|].
  intros Hg. by rewrite IH.
Qed.

Lemma NoDup_keys_dset k v d : NoDup (keys d) → NoDup (keys (dset k v d)).
Proof.
  intros Hnd. rewrite keys_dset. destruct (dget k d) eqn:Hg; [done|].
  apply NoDup_app. split_and!; [done| |apply NoDup_singleton].
  intros x Hx ->%list_elem_of_singleton. by apply dget_None in Hg.
Qed.

Lemma elem_of_dict k v d : NoDup (keys d) → (k, v) ∈ d ↔ dget k d = Some v.
Proof. split; [by apply elem_of_dget | apply dget_Some_elem_of]. Qed.

Lemma elem_of_dset k v k' v' d :
  NoDup (keys d) →
  (k', v') ∈ dset k v d ↔ (k' = k ∧ v' = v) ∨ (k' ≠ k ∧ (k', v') ∈ d).
Proof.
  intros Hnd. rewrite !elem_of_dict by auto using NoDup_keys_dset.
  destruct (decide (k = k')) as [->|Hne].
  - rewrite dget_dset_eq. naive_solver.
  - rewrite dget_dset_ne by done. naive_solver.
Qed.

End dict_facts.

(** ** The loader *)

Section loader_facts.
Implicit Types (t : dict (dict (list string))) (o s d : string).

Lemma load_body_eq file :
  load_body file =
  bind (read_rules (drop 4 file) []) (λ transitions,
    if decide (initial_token file ∈ states_tokens file) then
      bind (check_finals (final_tokens file) (states_tokens file)) (λ _,
      bind (check_transitions transitions (alphabet_tokens file)
              (states_tokens file)) (λ _,
      Ok (Automaton (alphabet_tokens file) (states_tokens file)
            (final_tokens file) (initial_token file) transitions)))
    else Raise (ValueError msg_initial)).
Proof. by destruct file as [|l0 [|l1 [|l2 [|l3 rest]]]]. Qed.

Lemma dset_not_nil {V} k (v : V) (d : dict V) : dset k v d ≠ [].
Proof. destruct d as [|[k' v'] d]; simpl; [done|]. by case_decide. Qed.

Lemma add_rule_lookup o s d t o' s' :
  dget o' (add_rule o s d t) ≫= dget s' =
  if decide (o' = o ∧ s' = s)
  then Some (default [] (dget o t ≫= dget s) ++ [d])
  else dget o' t ≫= dget s'.
Proof.
  unfold add_rule.
  destruct (decide (o' = o)) as [->|Hno].
  - rewrite dget_dset_eq. simpl.
    assert (default [] (dget o
              match dget o t with Some _ => t | None => dset o [] t end)
            = default [] (dget o t)) as ->.
    { destruct (dget o t) eqn:Ho; [by rewrite Ho|]. by rewrite dget_dset_eq. }
    set (row := default [] (dget o t)).
    assert (dget o t ≫= dget s = dget s row) as Hrow.
    { unfold row. by destruct (dget o t). }
    assert (dget o t ≫= dget s' = dget s' row) as Hrow'.
    { unfold row. by destruct (dget o t). }
    rewrite Hrow, Hrow'.
    destruct (decide (s' = s)) as [->|Hns].
    + rewrite dget_dset_eq, decide_True by done. f_equal. f_equal.
      destruct (dget s row) eqn:Hs; [by rewrite Hs|].
      by rewrite dget_dset_eq.
    + rewrite dget_dset_ne, decide_False by naive_solver.
      destruct (dget s row) eqn:Hs; [done|].
      by rewrite dget_dset_ne.
  - rewrite dget_dset_ne, decide_False by naive_solver.
    destruct (dget o t) as [row|] eqn:Ho; [done|].
    by rewrite dget_dset_ne.
Qed.

Lemma add_rule_has_rule o s d t o' s' d' :
  has_rule (add_rule o s d t) o' s' d' ↔
  (o' = o ∧ s' = s ∧ d' = d) ∨ has_rule t o' s' d'.
Proof.
  unfold has_rule. rewrite add_rule_lookup.
  destruct (decide (o' = o ∧ s' = s)) as [[-> ->]|Hne].
  - split.
    + intros (l & [= <-] & [Hin| ->%list_elem_of_singleton]%elem_of_app);
        [right | by left].
      destruct (dget o t ≫= dget s) as [l|]; [eauto|].
      by apply elem_of_nil in Hin.
    + intros [(_ & _ & ->)|(l & Hl & Hin)]; eexists; split; try done.
      * apply elem_of_app. right. by apply list_elem_of_singleton.
      * rewrite Hl. simpl. apply elem_of_app. by left.
  - split; [by right|]. intros [(-> & -> & _)|?]; [|done]. by destruct Hne.
Qed.

Lemma add_rule_table_ok o s d t : table_ok t → table_ok (add_rule o s d t).
Proof.
  intros [Hnd Hrows]. unfold add_rule.
  set (t1 := match dget o t with None => dset o [] t | Some _ => t end).
  set (row := default [] (dget o t1)).
  set (row1 := match dget s row with None => dset s [] row | Some _ => row end).
  assert (NoDup (keys t1)) as Hnd1.
  { unfold t1. destruct (dget o t); [done|]. by apply NoDup_keys_dset. }
  assert (row = default [] (dget o t)) as Hrow.
  { unfold row, t1. destruct (dget o t) eqn:Ho; [by rewrite Ho|].
    by rewrite dget_dset_eq. }
  assert (NoDup (keys row) ∧ ∀ s' l, dget s' row = Some l → l ≠ [])
    as [Hndrow Hrowne].
  { rewrite Hrow. destruct (dget o t) as [r|] eqn:Ho; simpl.
    - destruct (Hrows _ _ Ho) as (? & _ & ?). done.
    - split; [apply NoDup_nil_2 | done]. }
  assert (NoDup (keys row1)) as Hnd2.
  { unfold row1. destruct (dget s row); [done|]. by apply NoDup_keys_dset. }
  split; [by apply NoDup_keys_dset|].
  intros o' r'. destruct (decide (o = o')) as [<-|Hno].
  - rewrite dget_dset_eq. intros [= <-].
    split_and!; [by apply NoDup_keys_dset | apply dset_not_nil |].
    intros s' l. destruct (decide (s = s')) as [<-|Hns].
    + rewrite dget_dset_eq. intros [= <-]. by intros [_ ?]%app_nil.
    + rewrite dget_dset_ne by done. unfold row1.
      destruct (dget s row) eqn:Hs; [by apply Hrowne|].
      rewrite dget_dset_ne by done. by apply Hrowne.
  - rewrite dget_dset_ne by done. unfold t1.
    destruct (dget o t) eqn:Ho; [by apply Hrows|].
    rewrite dget_dset_ne by done. by apply Hrows.
Qed.

Lemma table_ok_nil : table_ok [].
Proof. split; [apply NoDup_nil_2 | done]. Qed.

(** A key of a table built by the loader has a rule. *)
Lemma table_ok_origin t o row :
  table_ok t → (o, row) ∈ t → ∃ s d, has_rule t o s d.
Proof.
  intros [Hnd Hrows] Hin. apply elem_of_dget in Hin; [|done].
  destruct (Hrows _ _ Hin) as (Hndr & Hne & Hl).
  destruct row as [|[s l] row]; [done|].
  assert (dget s ((s, l) :: row) = Some l) as Hs by (simpl; by rewrite decide_True).
  specialize (Hl _ _ Hs). destruct l as [|d l]; [done|].
  exists s, d, (d :: l). rewrite Hin. split; [done | apply list_elem_of_here].
Qed.

Lemma table_ok_has_rule t o row s l d :
  table_ok t → (o, row) ∈ t → (s, l) ∈ row → d ∈ l → has_rule t o s d.
Proof.
  intros [Hnd Hrows] Hin Hs Hd. apply elem_of_dget in Hin; [|done].
  destruct (Hrows _ _ Hin) as (Hndr & _ & _).
  apply elem_of_dget in Hs; [|done].
  exists l. by rewrite Hin.
Qed.

Lemma has_rule_elem_of t o s d :
  has_rule t o s d → ∃ row l, (o, row) ∈ t ∧ (s, l) ∈ row ∧ d ∈ l.
Proof.
  intros (l & Hl & Hd). destruct (dget o t) as [row|] eqn:Ho; [|done].
  exists row, l. split_and!; [| |done]; by apply dget_Some_elem_of.
Qed.

End loader_facts.

Section loader_checks.
Implicit Types (t : dict (dict (list string))) (o s d : string).

Lemma check_finals_Ok fs sts :
  check_finals fs sts = Ok () ↔ ∀ f, f ∈ fs → f ∈ sts.
Proof.
  induction fs as [|f fs IH]; simpl.
  - split; [intros _ f Hf; by apply elem_of_nil in Hf | done].
  - case_decide as Hf.
    + rewrite IH. split.
      * intros H f' [->|?]%elem_of_cons; auto.
      * intros H f' ?. apply H. by apply list_elem_of_further.
    + split; [done|]. intros H. destruct Hf. apply H, list_elem_of_here.
Qed.

Lemma check_finals_Raise fs sts e :
  check_finals fs sts = Raise e → e = ValueError msg_final.
Proof.
  induction fs as [|f fs IH]; simpl; [done|].
  case_decide; [done|]. by intros [= <-].
Qed.

Lemma check_destinations_Ok l sts :
  check_destinations l sts = Ok () ↔ ∀ d, d ∈ l → d ∈ sts.
Proof.
  induction l as [|d l IH]; simpl.
  - split; [intros _ d Hd; by apply elem_of_nil in Hd | done].
  - case_decide as Hd.
    + rewrite IH. split.
      * intros H d' [->|?]%elem_of_cons; auto.
      * intros H d' ?. apply H. by apply list_elem_of_further.
    + split; [done|]. intros H. destruct Hd. apply H, list_elem_of_here.
Qed.

Lemma check_destinations_Raise l sts e :
  check_destinations l sts = Raise e → e = ValueError msg_destination.
Proof.
  induction l as [|d l IH]; simpl; [done|].
  case_decide; [done|]. by intros [= <-].
Qed.

Lemma check_row_Ok (row : dict (list string)) alph sts :
  check_row row alph sts = Ok () ↔
  ∀ s l, (s, l) ∈ row → s ∈ alph ∧ ∀ d, d ∈ l → d ∈ sts.
Proof.
  induction row as [|[s l] row IH]; simpl.
  - split; [intros _ s l H; by apply elem_of_nil in H | done].
  - case_decide as Hs.
    + destruct (check_destinations l sts) as [[]|e] eqn:Hd; simpl.
      * rewrite check_destinations_Ok in Hd. rewrite IH. split.
        -- intros H s' l' [[= -> ->]|?]%elem_of_cons; auto.
        -- intros H s' l' ?. apply H. by apply list_elem_of_further.
      * split; [done|]. intros H.
        assert (check_destinations l sts = Ok ()) as Hok; [|congruence].
        apply check_destinations_Ok. by apply (H s l), list_elem_of_here.
    + split; [done|]. intros H. destruct Hs.
      by apply (H s l), list_elem_of_here.
Qed.

Lemma check_row_Raise (row : dict (list string)) alph sts e :
  check_row row alph sts = Raise e →
  (e = ValueError msg_symbol ∧ ∃ s l, (s, l) ∈ row ∧ s ∉ alph) ∨
  (e = ValueError msg_destination ∧
     ∃ s l d, (s, l) ∈ row ∧ d ∈ l ∧ d ∉ sts).
Proof.
  induction row as [|[s l] row IH]; simpl; [done|].
  case_decide as Hs.
  - destruct (check_destinations l sts) as [[]|e'] eqn:Hd; simpl.
    + intros [(-> & s' & l' & ? & ?)|(-> & s' & l' & d & ? & ? & ?)]%IH;
        [left|right]; (split; [done|]).
      * exists s', l'. split; [by apply list_elem_of_further | done].
      * exists s', l', d. split; [by apply list_elem_of_further | done].
    + intros [= <-]. right.
      split; [by apply check_destinations_Raise in Hd|].
      destruct (decide (Forall (λ d, d ∈ sts) l)) as [Hall|Hex].
      * rewrite Forall_forall in Hall.
        rewrite <-check_destinations_Ok in Hall. congruence.
      * apply not_Forall_Exists in Hex; [|apply _].
        apply Exists_exists in Hex as (d & ? & ?).
        exists s, l, d. split; [apply list_elem_of_here | done].
  - intros [= <-]. left. split; [done|].
    exists s, l. split; [apply list_elem_of_here | done].
Qed.

Lemma check_transitions_Ok t alph sts :
  check_transitions t alph sts = Ok () ↔
  ∀ o row, (o, row) ∈ t →
    o ∈ sts ∧ ∀ s l, (s, l) ∈ row → s ∈ alph ∧ ∀ d, d ∈ l → d ∈ sts.
Proof.
  induction t as [|[o row] t IH]; simpl.
  - split; [intros _ o r H; by apply elem_of_nil in H | done].
  - case_decide as Ho.
    + destruct (check_row row alph sts) as [[]|e] eqn:Hr; simpl.
      * rewrite check_row_Ok in Hr. rewrite IH. split.
        -- intros H o' r' [[= -> ->]|?]%elem_of_cons; auto.
        -- intros H o' r' ?. apply H. by apply list_elem_of_further.
      * split; [done|]. intros H.
        assert (check_row row alph sts = Ok ()) as Hok; [|congruence].
        apply check_row_Ok. by apply (H o row), list_elem_of_here.
    + split; [done|]. intros H. destruct Ho.
      by apply (H o row), list_elem_of_here.
Qed.

Lemma check_transitions_Raise t alph sts e :
  check_transitions t alph sts = Raise e →
  (e = ValueError msg_origin ∧ ∃ o row, (o, row) ∈ t ∧ o ∉ sts) ∨
  (e = ValueError msg_symbol ∧
     ∃ o row s l, (o, row) ∈ t ∧ (s, l) ∈ row ∧ s ∉ alph) ∨
  (e = ValueError msg_destination ∧
     ∃ o row s l d, (o, row) ∈ t ∧ (s, l) ∈ row ∧ d ∈ l ∧ d ∉ sts).
Proof.
  induction t as [|[o row] t IH]; simpl; [done|].
  case_decide as Ho.
  - destruct (check_row row alph sts) as [[]|e'] eqn:Hr; simpl.
    + intros [(-> & o' & r' & ? & ?)
             |[(-> & o' & r' & s & l & ? & ? & ?)
              |(-> & o' & r' & s & l & d & ? & ? & ? & ?)]]%IH.
      * left. split; [done|]. exists o', r'.
        split; [by apply list_elem_of_further | done].
      * right; left. split; [done|]. exists o', r', s, l.
        split; [by apply list_elem_of_further | done].
      * right; right. split; [done|]. exists o', r', s, l, d.
        split; [by apply list_elem_of_further | done].
    + intros [= <-].
      apply check_row_Raise in Hr
        as [(-> & s & l & ? & ?)|(-> & s & l & d & ? & ? & ?)].
      * right; left. split; [done|]. exists o, row, s, l.
        split; [apply list_elem_of_here | done].
      * right; right. split; [done|]. exists o, row, s, l, d.
        split; [apply list_elem_of_here | done].
  - intros [= <-]. left. split; [done|].
    exists o, row. split; [apply list_elem_of_here | done].
Qed.

(** The table that [read_rules] returns holds the rules read, and the
    loop fails exactly on a line that has not three tokens. *)
Lemma read_rules_Ok lines t t' :
  table_ok t → read_rules lines t = Ok t' →
  table_ok t' ∧
  ∀ o s d, has_rule t' o s d ↔
    has_rule t o s d ∨ [o; s; d] ∈ (λ l, split (strip l)) <$> lines.
Proof.
  revert t. induction lines as [|line lines IH]; intros t Hok; csimpl.
  - intros [= <-]. split; [done|]. intros o s d. split; [by left|].
    intros [?|H]; [done|]. by apply elem_of_nil in H.
  - destruct (split (strip line)) as [|o0 [|s0 [|d0 [|? ?]]]] eqn:Hparts;
      try done.
    intros Hrd. apply IH in Hrd as [Hok' Hrules]; [|by apply add_rule_table_ok].
    split; [done|]. intros o s d. rewrite Hrules, add_rule_has_rule.
    rewrite elem_of_cons. split.
    + intros [[(-> & -> & ->)|?]|?]; auto.
    + intros [?|[[= -> -> ->]|?]]; auto.
Qed.

Lemma read_rules_well_formed lines t :
  Forall (λ parts, length parts = 3) ((λ l, split (strip l)) <$> lines) →
  ∃ t', read_rules lines t = Ok t'.
Proof.
  revert t. induction lines as [|line lines IH]; intros t; csimpl; [eauto|].
  rewrite Forall_cons. intros [Hlen Hall].
  destruct (split (strip line)) as [|o0 [|s0 [|d0 [|? ?]]]]; try done.
  by apply IH.
Qed.

End loader_checks.

Section loader_results.
Implicit Types (t : dict (dict (list string))) (o s d : string).

Lemma table_ok_symbol t o row s l :
  table_ok t → (o, row) ∈ t → (s, l) ∈ row → ∃ d, has_rule t o s d.
Proof.
  intros Hok Hin Hs. pose proof Hok as [Hnd Hrows].
  pose proof (elem_of_dget _ _ _ Hnd Hin) as Ho.
  destruct (Hrows _ _ Ho) as (Hndr & _ & Hl).
  pose proof (elem_of_dget _ _ _ Hndr Hs) as Hsl.
  specialize (Hl _ _ Hsl). destruct l as [|d l]; [done|].
  exists d. eapply table_ok_has_rule; eauto. apply list_elem_of_here.
Qed.

Lemma check_transitions_rules_Ok t alph sts :
  table_ok t →
  check_transitions t alph sts = Ok () ↔
  ∀ o s d, has_rule t o s d → o ∈ sts ∧ s ∈ alph ∧ d ∈ sts.
Proof.
  intros Hok. rewrite check_transitions_Ok. split.
  - intros H o s d (row & l & Ho & Hs & Hd)%has_rule_elem_of.
    destruct (H _ _ Ho) as [? Hrow]. destruct (Hrow _ _ Hs) as [? Hl]. auto.
  - intros H o row Ho. split.
    + destruct (table_ok_origin _ _ _ Hok Ho) as (s & d & Hr).
      by destruct (H _ _ _ Hr).
    + intros s l Hs. split.
      * destruct (table_ok_symbol _ _ _ _ _ Hok Ho Hs) as (d & Hr).
        by destruct (H _ _ _ Hr) as (_ & ? & _).
      * intros d Hd. pose proof (table_ok_has_rule _ _ _ _ _ _ Hok Ho Hs Hd) as Hr.
        by destruct (H _ _ _ Hr) as (_ & _ & ?).
Qed.

Lemma check_transitions_rules_Raise t alph sts e :
  table_ok t → check_transitions t alph sts = Raise e →
  (e = ValueError msg_origin ∧ ∃ o s d, has_rule t o s d ∧ o ∉ sts) ∨
  (e = ValueError msg_symbol ∧ ∃ o s d, has_rule t o s d ∧ s ∉ alph) ∨
  (e = ValueError msg_destination ∧ ∃ o s d, has_rule t o s d ∧ d ∉ sts).
Proof.
  intros Hok [(-> & o & row & Ho & Hn)
             |[(-> & o & row & s & l & Ho & Hs & Hn)
              |(-> & o & row & s & l & d & Ho & Hs & Hd & Hn)]]
             %check_transitions_Raise.
  - left. split; [done|].
    destruct (table_ok_origin _ _ _ Hok Ho) as (s & d & Hr). eauto.
  - right; left. split; [done|].
    destruct (table_ok_symbol _ _ _ _ _ Hok Ho Hs) as (d & Hr). eauto.
  - right; right. split; [done|].
    exists o, s, d. split; [|done]. by eapply table_ok_has_rule.
Qed.

Lemma has_rule_nil o s d : ¬ has_rule [] o s d.
Proof. by intros (l & ? & _). Qed.

(** What the table of a well-formed file holds. *)
Lemma read_rules_file file :
  well_formed file →
  ∃ t, read_rules (drop 4 file) [] = Ok t ∧ table_ok t ∧
       ∀ o s d, has_rule t o s d ↔ [o; s; d] ∈ rules file.
Proof.
  intros Hwf. destruct (read_rules_well_formed _ [] Hwf) as [t Ht].
  exists t. split; [done|].
  destruct (read_rules_Ok _ _ _ table_ok_nil Ht) as [Hok Hrules].
  split; [done|]. intros o s d. rewrite Hrules. split; [|by right].
  intros [[]%has_rule_nil|?]; done.
Qed.

(** A line without its three tokens makes the loader fail on the format. *)
Lemma read_rules_ill_formed lines t :
  ¬ Forall (λ parts, length parts = 3) ((λ l, split (strip l)) <$> lines) →
  read_rules lines t = Raise (ValueError msg_format).
Proof.
  revert t. induction lines as [|line lines IH]; intros t; csimpl.
  - intros []. constructor.
  - rewrite Forall_cons. intros Hn.
    destruct (split (strip line)) as [|o0 [|s0 [|d0 [|? ?]]]]; try done.
    apply IH. intros ?. by apply Hn.
Qed.

Lemma load_automata_fields file a :
  load_automata file = Ok a →
  alphabet a = alphabet_tokens file ∧ states a = states_tokens file ∧
  final_states a = final_tokens file ∧ initial_state a = initial_token file ∧
  read_rules (drop 4 file) [] = Ok (transitions a) ∧
  initial_token file ∈ states_tokens file ∧
  check_finals (final_tokens file) (states_tokens file) = Ok () ∧
  check_transitions (transitions a) (alphabet_tokens file)
    (states_tokens file) = Ok ().
Proof.
  unfold load_automata. rewrite load_body_eq.
  destruct (read_rules (drop 4 file) []) as [t|[]]; simpl; try done.
  case_decide; [|done].
  destruct (check_finals _ _) as [[]|[]]; simpl; try done.
  destruct (check_transitions _ _ _) as [[]|[]] eqn:Hc; simpl; try done.
  intros [= <-]. simpl. by rewrite Hc.
Qed.

Lemma load_automata_table_ok file a :
  load_automata file = Ok a → table_ok (transitions a).
Proof.
  intros (_ & _ & _ & _ & Hrd & _)%load_automata_fields.
  by destruct (read_rules_Ok _ _ _ table_ok_nil Hrd).
Qed.

Lemma load_automata_invariants file a :
  load_automata file = Ok a → invariants a.
Proof.
  intros (Ha & Hs & Hf & Hi & Hrd & Hinit & Hfin & Htr)%load_automata_fields.
  rewrite check_finals_Ok in Hfin. rewrite check_transitions_Ok in Htr.
  split; rewrite ?Ha, ?Hs, ?Hf, ?Hi; try done.
  - intros o row Ho. by destruct (Htr _ _ Ho).
  - intros o row s l d Ho Hsl Hd. destruct (Htr _ _ Ho) as [_ Hrow].
    destruct (Hrow _ _ Hsl) as [_ Hl]. by apply Hl.
  - intros o row s l Ho Hsl. destruct (Htr _ _ Ho) as [_ Hrow].
    by destruct (Hrow _ _ Hsl).
Qed.

Lemma load_automata_valid file a : load_automata file = Ok a → valid a.
Proof.
  intros [Hnd Hrows]%load_automata_table_ok o row s l Ho Hs.
  pose proof (elem_of_dget _ _ _ Hnd Ho) as Hg.
  destruct (Hrows _ _ Hg) as (Hndr & _ & Hl).
  eapply Hl. by apply elem_of_dget.
Qed.

End loader_results.

(** ** The simulator *)

Section process_facts.
Implicit Types (a : automaton (list string)) (q : string).

Lemma process_word_eq a word results :
  process_word a word results =
  bind (for_symbols a word (initial_state a) results) (conclude a).
Proof. done. Qed.

Lemma for_symbols_classify a word q results :
  valid a →
  bind (for_symbols a word q results) (conclude a)
  = Ok (results ++ [tag (classify_from a q word)]).
Proof.
  intros Hv. revert q. induction word as [|symbol rest IH]; intros q; simpl.
  - by case_decide.
  - case_decide; [|done]. unfold transition.
    destruct (dget q (transitions a)) as [row|] eqn:Hq; simpl; [|done].
    destruct (dget symbol row) as [l|] eqn:Hs; simpl; [|done].
    destruct l as [|d l]; simpl; [|apply IH].
    destruct (Hv q row symbol []); auto using dget_Some_elem_of.
Qed.

Lemma process_word_classify a word results :
  valid a →
  process_word a word results = Ok (results ++ [tag (classify a word)]).
Proof. intros Hv. rewrite process_word_eq. by apply for_symbols_classify. Qed.

Lemma for_words_classify a words results :
  valid a →
  for_words a words results
  = Ok (results ++ ((λ w, tag (classify a w)) <$> words)).
Proof.
  intros Hv. revert results.
  induction words as [|word words IH]; intros results; csimpl.
  - by rewrite app_nil_r.
  - rewrite process_word_classify by done. simpl.
    rewrite IH. by rewrite <-app_assoc.
Qed.

Lemma process_classify a words :
  valid a → process a words = Ok ((λ w, tag (classify a w)) <$> words).
Proof. intros Hv. unfold process. by rewrite for_words_classify. Qed.

End process_facts.

(** ** Sets and sorting *)

Section set_facts.
Implicit Types (x y : string) (s : pyset) (xs : list string).

Lemma elem_of_add x y s : y ∈ add x s ↔ y = x ∨ y ∈ s.
Proof.
  unfold add. case_decide as Hx.
  - split; [by right | by intros [->|?]].
  - rewrite elem_of_app, list_elem_of_singleton. tauto.
Qed.

Lemma NoDup_add x s : NoDup s → NoDup (add x s).
Proof.
  intros Hnd. unfold add. case_decide as Hx; [done|].
  apply NoDup_app. split_and!; [done| |apply NoDup_singleton].
  by intros y Hy ->%list_elem_of_singleton.
Qed.

Lemma length_add x s :
  length (add x s) = length s + (if decide (x ∈ s) then 0 else 1).
Proof. unfold add. case_decide; [lia|]. by rewrite length_app. Qed.

Lemma elem_of_update xs y s : y ∈ update xs s ↔ y ∈ xs ∨ y ∈ s.
Proof.
  unfold update. revert s. induction xs as [|x xs IH]; intros s; simpl.
  - rewrite elem_of_nil. tauto.
  - rewrite IH, elem_of_add, elem_of_cons. tauto.
Qed.

Lemma NoDup_update xs s : NoDup s → NoDup (update xs s).
Proof.
  unfold update. revert s. induction xs as [|x xs IH]; intros s Hnd; simpl.
  - done.
  - by apply IH, NoDup_add.
Qed.

(** [sorted] gives one result on all the orderings of a collection. *)
Lemma sorted_Permutation (l1 l2 : list string) :
  l1 ≡ₚ l2 → sorted l1 = sorted l2.
Proof.
  intros Hp. unfold sorted. apply (Sorted_unique String.le).
  - apply (Sorted_merge_sort _).
  - apply (Sorted_merge_sort _).
  - by rewrite !merge_sort_Permutation.
Qed.

Lemma length_sublists {A} (l : list A) : length (sublists l) = 2 ^ length l.
Proof.
  induction l as [|x l IH]; simpl; [done|].
  rewrite length_app, length_fmap, IH. lia.
Qed.

Lemma elem_of_sublists {A} (l1 l2 : list A) :
  l1 `sublist_of` l2 → l1 ∈ sublists l2.
Proof.
  induction 1 as [|x l1 l2 _ IH|x l1 l2 _ IH]; simpl.
  - apply list_elem_of_here.
  - apply elem_of_app. left. apply list_elem_of_fmap. eauto.
  - apply elem_of_app. by right.
Qed.

(** The key of a duplicate-free collection drawn from [D] is the key of a
    sublist of [D]. *)
Lemma key_of_sublists (l D : list string) :
  NoDup l → NoDup D → (∀ x, x ∈ l → x ∈ D) →
  key_of l ∈ key_of <$> sublists D.
Proof.
  intros Hl HD Hsub. apply list_elem_of_fmap.
  exists (filter (λ x, x ∈ l) D). split.
  - unfold key_of. f_equal. apply sorted_Permutation.
    apply NoDup_Permutation; [done | by apply NoDup_filter |].
    intros x. rewrite list_elem_of_filter. naive_solver.
  - apply elem_of_sublists, sublist_filter.
Qed.

End set_facts.

(** ** The converter *)

Section converter_facts.
Context {V : Type} `{!Seq V}.
Implicit Types (a : automaton V) (st : conv_state).

Lemma elem_of_all_destinations a o row s v x :
  dget o (transitions a) = Some row → dget s row = Some v → x ∈ iter v →
  x ∈ all_destinations a.
Proof.
  intros Ho Hs Hx. unfold all_destinations.
  apply elem_of_remove_dups, list_elem_of_bind.
  exists (o, row). split; [|by apply dget_Some_elem_of].
  apply list_elem_of_bind. exists (s, v).
  split; [done | by apply dget_Some_elem_of].
Qed.

Lemma gather_spec a cs symbol :
  NoDup (gather a cs symbol) ∧
  ∀ x, x ∈ gather a cs symbol → x ∈ all_destinations a.
Proof.
  unfold gather.
  assert (NoDup (@nil string) ∧ ∀ x, x ∈ @nil string → x ∈ all_destinations a)
    as Hacc.
  { split; [apply NoDup_nil_2 | by intros x ?%elem_of_nil]. }
  revert Hacc. generalize (@nil string).
  induction cs as [|state cs IH]; intros acc [Hnd Hsub]; simpl; [done|].
  apply IH.
  destruct (dget state (transitions a)) as [row|] eqn:Ho; [|done].
  destruct (dget symbol row) as [v|] eqn:Hs; [|done].
  split; [by apply NoDup_update|].
  intros x [Hx|Hx]%elem_of_update; [|by apply Hsub].
  by eapply elem_of_all_destinations.
Qed.

Lemma key_of_gather a cs symbol : key_of (gather a cs symbol) ∈ universe a.
Proof.
  destruct (gather_spec a cs symbol) as [Hnd Hsub].
  apply list_elem_of_further, key_of_sublists; [done| |done].
  apply NoDup_remove_dups.
Qed.

Lemma length_universe a :
  length (universe a) = 1 + 2 ^ length (all_destinations a).
Proof. unfold universe. simpl. by rewrite length_fmap, length_sublists. Qed.

Lemma get_state_name_spec l ns c id ns' c' (U : list string) :
  get_state_name l ns c = (id, ns', c') →
  NoDup (keys ns) → values ns = fresh_name <$> seq 0 c →
  (∀ k, k ∈ keys ns → k ∈ U) → key_of l ∈ U →
  NoDup (keys ns') ∧ values ns' = fresh_name <$> seq 0 c' ∧
  (∀ k, k ∈ keys ns' → k ∈ U) ∧ id ∈ values ns' ∧
  (∀ x, x ∈ values ns → x ∈ values ns') ∧ c ≤ c'.
Proof.
  unfold get_state_name. intros Hg Hnd Hvals HU Hl.
  destruct (dget (key_of l) ns) as [id0|] eqn:Hd; simplify_eq.
  - split_and!; try done. apply list_elem_of_fmap.
    exists (key_of l, id). split; [done | by apply dget_Some_elem_of].
  - split_and!.
    + by apply NoDup_keys_dset.
    + rewrite values_dset_fresh, Hvals by done.
      by rewrite seq_S, fmap_app.
    + intros k. rewrite keys_dset, Hd.
      intros [?| ->%list_elem_of_singleton]%elem_of_app; auto.
    + rewrite values_dset_fresh by done.
      apply elem_of_app. right. apply list_elem_of_here.
    + intros x Hx. rewrite values_dset_fresh by done.
      apply elem_of_app. by left.
    + lia.
Qed.

Lemma symbol_step_spec a current cs st symbol :
  conv_inv a st → current ∈ processed_states st → symbol ∈ alphabet a →
  let st' := symbol_step a current cs st symbol in
  conv_inv a st' ∧
  processed_states st' = processed_states st ∧
  dfa_final_states st' = dfa_final_states st ∧
  (states_to_process st' = states_to_process st ∨
   ∃ y, states_to_process st' = y :: states_to_process st ∧
        y ∉ processed_states st).
Proof.
  intros Hinv Hcur Hsym. unfold symbol_step.
  pose proof (key_of_gather a cs symbol) as Hkey.
  destruct (gather a cs symbol) as [|x l]; simpl; [by auto|].
  destruct (get_state_name (x :: l) (new_states st) (state_counter st))
    as [[id ns'] c'] eqn:Hg.
  destruct Hinv as [Hnd Hvals Hpos HU Hstack Hproc Hpnd Hfin Hond Hrows].
  destruct (get_state_name_spec _ _ _ _ _ _ _ Hg Hnd Hvals HU Hkey)
    as (Hnd' & Hvals' & HU' & Hid & Hmono & Hle).
  set (row := default [] (dget current (dfa_transitions st))).
  assert (NoDup (keys row) ∧
          ∀ s v, (s, v) ∈ row → s ∈ alphabet a ∧ v ∈ values ns')
    as [Hrnd Hrow].
  { unfold row.
    destruct (dget current (dfa_transitions st)) as [r|] eqn:Hr; simpl.
    - apply dget_Some_elem_of, Hrows in Hr as (_ & ? & Hr).
      split; [done|]. intros s v Hsv. destruct (Hr _ _ Hsv). auto.
    - split; [apply NoDup_nil_2 | by intros s v ?%elem_of_nil]. }
  split_and!; [split; simpl | done | done |].
  - done.
  - done.
  - lia.
  - done.
  - intros y. case_decide; [auto|].
    intros [->|?]%elem_of_cons; auto.
  - auto.
  - done.
  - done.
  - by apply NoDup_keys_dset.
  - intros o r Hin. rewrite elem_of_dset in Hin by done.
    destruct Hin as [[-> ->]|[_ Hin]].
    + split_and!; [done | by apply NoDup_keys_dset |].
      intros s v Hsv. rewrite elem_of_dset in Hsv by done.
      destruct Hsv as [[-> ->]|[_ Hsv]]; [auto|].
      by apply Hrow.
    + destruct (Hrows _ _ Hin) as (? & ? & Hr). split_and!; [done..|].
      intros s v Hsv. destruct (Hr _ _ Hsv). auto.
  - simpl. case_decide; [by left|]. right. eauto.
Qed.

End converter_facts.

Section converter_loop.
Context {V : Type} `{!Seq V}.
Implicit Types (a : automaton V) (st : conv_state).

Lemma fold_symbols_spec a current cs syms st :
  conv_inv a st → current ∈ processed_states st →
  (∀ s, s ∈ syms → s ∈ alphabet a) →
  let st' := foldl (symbol_step a current cs) st syms in
  conv_inv a st' ∧
  processed_states st' = processed_states st ∧
  dfa_final_states st' = dfa_final_states st ∧
  ∃ pushes, states_to_process st' = pushes ++ states_to_process st ∧
            length pushes ≤ length syms ∧
            ∀ y, y ∈ pushes → y ∉ processed_states st.
Proof.
  revert st. induction syms as [|s syms IH]; intros st Hinv Hcur Hsyms; simpl.
  - split_and!; try done. exists []. split_and!; [done..|].
    by intros y ?%elem_of_nil.
  - destruct (symbol_step_spec a current cs st s Hinv Hcur)
      as (Hinv1 & Hp1 & Hf1 & Hstack1); [apply Hsyms, list_elem_of_here|].
    destruct (IH (symbol_step a current cs st s)) as (Hinv' & Hp' & Hf' & Hst').
    { done. }
    { by rewrite Hp1. }
    { intros s' ?. by apply Hsyms, list_elem_of_further. }
    split_and!; [done | congruence | congruence |].
    destruct Hst' as (pushes & -> & Hlen & Hnot). rewrite Hp1 in Hnot.
    destruct Hstack1 as [->|(y & -> & Hy)].
    + exists pushes. split_and!; [done | lia | done].
    + exists (pushes ++ [y]). split_and!.
      * by rewrite <-app_assoc.
      * rewrite length_app. simpl. lia.
      * intros z [?| ->%list_elem_of_singleton]%elem_of_app; auto.
Qed.

(** No more names are in use than there are keys to ask for. *)
Lemma conv_inv_bound a st (l : list string) :
  conv_inv a st → NoDup l → (∀ x, x ∈ l → x ∈ values (new_states st)) →
  length l ≤ length (universe a).
Proof.
  intros Hinv Hnd Hsub.
  trans (length (values (new_states st))).
  { by apply submseteq_length, NoDup_submseteq. }
  unfold values. rewrite length_fmap, <-(length_fmap fst).
  apply submseteq_length, NoDup_submseteq; apply Hinv.
Qed.

Lemma pop_inv a current stack st (finals : pyset) :
  conv_inv a st → states_to_process st = current :: stack →
  (∀ x, x ∈ finals → x = current ∨ x ∈ dfa_final_states st) →
  conv_inv a
    (ConvState (new_states st) (state_counter st)
       (dset current [] (dfa_transitions st)) finals stack
       (add current (processed_states st))).
Proof.
  intros [Hnd Hvals Hpos HU Hstack Hproc Hpnd Hfin Hond Hrows] Hst Hfinals.
  assert (current ∈ values (new_states st)) as Hcur.
  { apply Hstack. rewrite Hst. apply list_elem_of_here. }
  split; simpl; try done.
  - intros x Hx. apply Hstack. rewrite Hst. by apply list_elem_of_further.
  - intros x [->|?]%elem_of_add; auto.
  - by apply NoDup_add.
  - intros x Hx. apply elem_of_add. destruct (Hfinals _ Hx); auto.
  - by apply NoDup_keys_dset.
  - intros o r Hin. rewrite elem_of_dset in Hin by done.
    destruct Hin as [[-> ->]|[_ Hin]].
    + split_and!; [apply elem_of_add; by left | apply NoDup_nil_2 |].
      by intros s v ?%elem_of_nil.
    + destruct (Hrows _ _ Hin) as (? & ? & ?).
      split_and!; [apply elem_of_add; by right | done | done].
Qed.

Lemma iteration_finals a current st x :
  x ∈ (if existsb (λ state, bool_decide (state ∈ final_states a))
            (split_on "," current)
       then add current (dfa_final_states st)
       else dfa_final_states st) →
  x = current ∨ x ∈ dfa_final_states st.
Proof. destruct (existsb _ _); [by intros ?%elem_of_add | auto]. Qed.

Lemma iteration_spec a current stack st :
  conv_inv a st → states_to_process st = current :: stack →
  let st' := iteration a current stack st in
  conv_inv a st' ∧ potential a st' < potential a st.
Proof.
  intros Hinv Hst. unfold iteration.
  set (finals := if existsb _ _ then _ else _).
  set (st1 := ConvState _ _ _ _ _ _).
  assert (conv_inv a st1) as Hinv1.
  { apply pop_inv; [done..|]. apply iteration_finals. }
  destruct (fold_symbols_spec a current (split_on "," current)
              (alphabet a) st1 Hinv1)
    as (Hinv' & Hp' & _ & pushes & Hst' & Hlen & Hnot); [|done|].
  { apply elem_of_add. by left. }
  split; [done|].
  unfold potential, top_pending. rewrite Hst', Hp', Hst.
  set (k := length (alphabet a)) in *.
  remember (length (universe a)) as N eqn:HN.
  cbn [processed_states states_to_process st1].
  rewrite length_app, length_add. cbn [length].
  set (p := length (processed_states st)).
  set (flag := if decide (current ∈ processed_states st) then 0 else 1).
  destruct pushes as [|y pushes]; cbn [app length].
  - destruct stack as [|x stack]; [cbn [length]; nia|].
    destruct (decide (x ∈ _)); cbn [length]; nia.
  - rewrite decide_False by (apply Hnot, list_elem_of_here).
    assert (length (y :: add current (processed_states st)) ≤ length (universe a))
      as Hb.
    { apply (conv_inv_bound a _ _ Hinv').
      - apply NoDup_cons. split; [apply Hnot, list_elem_of_here|].
        apply NoDup_add, Hinv.
      - intros x [->|Hx]%elem_of_cons.
        + apply (ci_stack _ _ Hinv'). rewrite Hst'. apply list_elem_of_here.
        + apply (ci_processed _ _ Hinv'). by rewrite Hp'. }
    rewrite <-HN in Hb. cbn [length] in Hb.
    rewrite length_add in Hb. fold p flag in Hb.
    cbn [length] in Hlen. nia.
Qed.

Lemma potential_stack a st :
  length (states_to_process st) ≤ potential a st.
Proof. unfold potential. apply Nat.le_add_r. Qed.

(** The loop ends, within as many iterations as the potential counts. *)
Lemma while_loop_terminates a fuel st :
  conv_inv a st → potential a st ≤ fuel →
  ∃ st', while_loop fuel a st = Some st' ∧ conv_inv a st' ∧
         states_to_process st' = [].
Proof.
  revert st. induction fuel as [|fuel IH]; intros st Hinv Hpot;
    pose proof (potential_stack a st) as Hlen;
    destruct (states_to_process st) as [|current stack] eqn:Hst; simpl;
    rewrite Hst.
  - eauto.
  - simpl in Hlen. lia.
  - eauto.
  - destruct (iteration_spec a current stack st Hinv Hst) as [Hinv' Hlt].
    apply IH; [done | lia].
Qed.

Lemma while_loop_more_fuel a fuel fuel' st st' :
  while_loop fuel a st = Some st' → fuel ≤ fuel' →
  while_loop fuel' a st = Some st'.
Proof.
  revert fuel' st. induction fuel as [|fuel IH]; intros fuel' st; simpl;
    destruct (states_to_process st) as [|current stack] eqn:Hst; try done.
  - intros ? _. destruct fuel'; simpl; by rewrite Hst.
  - intros ? _. destruct fuel'; simpl; by rewrite Hst.
  - intros Hw Hle. destruct fuel' as [|fuel']; [lia|]. simpl. rewrite Hst.
    apply IH; [done | lia].
Qed.

Lemma initial_conv_state_eq a :
  initial_conv_state a =
  ConvState [(key_of [initial_state a], fresh_name 0)] 1 [] []
    [fresh_name 0] [].
Proof. done. Qed.

Lemma convert_with_fuel_eq fuel a :
  convert_with_fuel fuel a =
  st ← while_loop fuel a (initial_conv_state a);
  Some (result a (fresh_name 0) st).
Proof. done. Qed.

Lemma initial_conv_inv a : conv_inv a (initial_conv_state a).
Proof.
  rewrite initial_conv_state_eq. split; simpl.
  - apply NoDup_singleton.
  - done.
  - lia.
  - intros k ->%list_elem_of_singleton. apply list_elem_of_here.
  - intros x ->%list_elem_of_singleton. apply list_elem_of_here.
  - by intros x ?%elem_of_nil.
  - apply NoDup_nil_2.
  - by intros x ?%elem_of_nil.
  - apply NoDup_nil_2.
  - by intros o row ?%elem_of_nil.
Qed.

Lemma initial_potential a :
  potential a (initial_conv_state a) = fuel_bound a.
Proof.
  rewrite initial_conv_state_eq. unfold potential, top_pending, fuel_bound.
  rewrite length_universe. cbn [states_to_process processed_states length].
  rewrite decide_False by apply not_elem_of_nil.
  do 2 f_equal. generalize (2 ^ length (all_destinations a)). lia.
Qed.

(** [convert_to_dfa] returns, and the variables of its loop are then as
    [conv_inv] says. *)
Lemma convert_to_dfa_result a :
  ∃ st, while_loop (fuel_bound a) a (initial_conv_state a) = Some st ∧
        conv_inv a st ∧ states_to_process st = [] ∧
        convert_to_dfa a = Some (result a (fresh_name 0) st).
Proof.
  destruct (while_loop_terminates a (fuel_bound a) (initial_conv_state a))
    as (st & Hw & Hinv & Hst).
  { apply initial_conv_inv. }
  { by rewrite initial_potential. }
  exists st. split_and!; try done.
  unfold convert_to_dfa. rewrite convert_with_fuel_eq. by rewrite Hw.
Qed.

End converter_loop.

Section converter_results.
Context {V : Type} `{!Seq V}.
Implicit Types (a : automaton V) (st : conv_state).

Lemma result_invariants a st :
  conv_inv a st → invariants (result a (fresh_name 0) st).
Proof.
  intros [Hnd Hvals Hpos HU Hstack Hproc Hpnd Hfin Hond Hrows].
  split; simpl.
  - rewrite Hvals. apply list_elem_of_fmap. exists 0. split; [done|].
    apply elem_of_seq. lia.
  - auto.
  - intros o row Ho. apply Hproc. by destruct (Hrows _ _ Ho).
  - intros o row s v d Ho Hs ->%list_elem_of_singleton.
    destruct (Hrows _ _ Ho) as (_ & _ & Hrow). by destruct (Hrow _ _ Hs).
  - intros o row s v Ho Hs.
    destruct (Hrows _ _ Ho) as (_ & _ & Hrow). by destruct (Hrow _ _ Hs).
Qed.

(** The table of the result relates a state and a symbol to one state at
    most. *)
Lemma result_deterministic a st o s d1 d2 :
  conv_inv a st →
  delta (result a (fresh_name 0) st) o s d1 →
  delta (result a (fresh_name 0) st) o s d2 → d1 = d2.
Proof.
  intros Hinv (row1 & v1 & Ho1 & Hs1 & ->%list_elem_of_singleton)
              (row2 & v2 & Ho2 & Hs2 & ->%list_elem_of_singleton).
  simpl in *.
  pose proof (elem_of_dget _ _ _ (ci_origins_nodup _ _ Hinv) Ho1) as Hg1.
  pose proof (elem_of_dget _ _ _ (ci_origins_nodup _ _ Hinv) Ho2) as Hg2.
  assert (row1 = row2) as <- by congruence.
  destruct (ci_rows _ _ Hinv _ _ Ho1) as (_ & Hnd & _).
  pose proof (elem_of_dget _ _ _ Hnd Hs1).
  pose proof (elem_of_dget _ _ _ Hnd Hs2). congruence.
Qed.

(** Every destination that the result records is a minted identifier. *)
Lemma result_destination_fresh a st o row s v :
  conv_inv a st → (o, row) ∈ dfa_transitions st → (s, v) ∈ row →
  ∃ n, v = fresh_name n.
Proof.
  intros Hinv Ho Hs. destruct (ci_rows _ _ Hinv _ _ Ho) as (_ & _ & Hrow).
  destruct (Hrow _ _ Hs) as [_ Hv]. rewrite (ci_values _ _ Hinv) in Hv.
  apply list_elem_of_fmap in Hv as (n & -> & _). eauto.
Qed.

Lemma run_iterations_inv a n st :
  conv_inv a st → conv_inv a (run_iterations n a st).
Proof.
  revert st. induction n as [|n IH]; intros st Hinv; simpl; [done|].
  destruct (states_to_process st) as [|current stack] eqn:Hst; [done|].
  apply IH. by apply iteration_spec.
Qed.

(** What an iteration appends to the worklist was not yet processed, the
    popped state counting as processed. *)
Lemma pushed_not_processed a current stack st y :
  conv_inv a st → states_to_process st = current :: stack →
  y ∈ pushed a current stack st →
  y ∉ add current (processed_states st).
Proof.
  intros Hinv Hst. unfold pushed, iteration.
  set (finals := if existsb _ _ then _ else _).
  set (st1 := ConvState _ _ _ _ _ _).
  assert (conv_inv a st1) as Hinv1.
  { apply pop_inv; [done..|]. apply iteration_finals. }
  destruct (fold_symbols_spec a current (split_on "," current)
              (alphabet a) st1 Hinv1)
    as (_ & _ & _ & pushes & -> & _ & Hnot); [|done|].
  { apply elem_of_add. by left. }
  cbn [states_to_process st1]. rewrite length_app.
  replace (length pushes + length stack - length stack) with (length pushes)
    by lia.
  rewrite take_app_length. apply Hnot.
Qed.

End converter_results.

(** ** Identifiers *)

Lemma pretty_N_go_nonempty (x : N) (s : string) :
  s ≠ "" → pretty_N_go x s ≠ "".
Proof.
  revert s. induction (N.lt_wf_0 x) as [x _ IH]; intros s Hs.
  destruct (decide (0 < x)%N) as [Hx|Hx].
  - rewrite pretty_N_go_step by done. apply IH; [|done].
    apply N.div_lt; lia.
  - assert (x = 0%N) as -> by lia. by rewrite pretty_N_go_0.
Qed.

Lemma pretty_nat_nonempty (n : nat) : pretty n ≠ "".
Proof.
  unfold pretty, pretty_nat, pretty, pretty_N. case_decide; [done|].
  rewrite pretty_N_go_step by lia. by apply pretty_N_go_nonempty.
Qed.

(** An identifier is the letter q followed by at least one digit. *)
Lemma fresh_name_eq (n : nat) : fresh_name n = String "q" (pretty n).
Proof. done. Qed.

Lemma fresh_name_not_q (n : nat) : fresh_name n ≠ "q".
Proof.
  rewrite fresh_name_eq. intros [= Hp]. by apply (pretty_nat_nonempty n).
Qed.

(** * Further properties of the code *)

(** ** Strings *)

Lemma rev_app_eq_empty (s1 s2 : string) :
  String.rev_app s1 s2 = "" → s1 = "" ∧ s2 = "".
Proof.
  revert s2. induction s1 as [|c s1 IH]; intros s2; simpl; [done|].
  by intros [_ [=]]%IH.
Qed.

Lemma characters_rev_app (s1 s2 : string) (c : ascii) :
  c ∈ characters (String.rev_app s1 s2) ↔
  c ∈ characters s1 ∨ c ∈ characters s2.
Proof.
  revert s2. induction s1 as [|c1 s1 IH]; intros s2; simpl.
  - rewrite elem_of_nil. tauto.
  - rewrite IH. simpl. rewrite !elem_of_cons. tauto.
Qed.

Lemma rev_app_rev_app (s a b : string) :
  String.rev_app (String.rev_app s a) b = String.rev_app a (s +:+ b).
Proof.
  revert a b. induction s as [|c s IH]; intros a b; simpl; [done|].
  by rewrite IH.
Qed.

Lemma string_app_empty_r (s : string) : s +:+ "" = s.
Proof. induction s as [|c s IH]; [done|]. unfold String.app in *. simpl. by rewrite IH. Qed.

Lemma rev_rev (s : string) : String.rev (String.rev s) = s.
Proof.
  unfold String.rev. rewrite rev_app_rev_app. simpl. apply string_app_empty_r.
Qed.

(** What [split()] returns are tokens. *)
Lemma split_go_tokens (cur : option string) (s x : string) :
  (∀ acc, cur = Some acc → token acc) →
  x ∈ split_go cur s → token x.
Proof.
  revert cur. induction s as [|c s IH]; intros cur Hcur; simpl.
  - destruct cur as [acc|]; simpl; [|by intros ?%elem_of_nil].
    intros ->%list_elem_of_singleton. destruct (Hcur acc eq_refl) as [Hne Hb].
    split.
    + intros [-> _]%rev_app_eq_empty. done.
    + intros c' [?|Hc]%characters_rev_app; [auto|].
      by apply elem_of_nil in Hc.
  - destruct (isspace c) eqn:Hc.
    + intros [Hx|Hx]%elem_of_app; [|by apply (IH None)].
      destruct cur as [acc|]; simpl in Hx; [|by apply elem_of_nil in Hx].
      apply list_elem_of_singleton in Hx as ->.
      destruct (Hcur acc eq_refl) as [Hne Hb]. split.
      * intros [-> _]%rev_app_eq_empty. done.
      * intros c' [?|Hc']%characters_rev_app; [auto|].
        by apply elem_of_nil in Hc'.
    + apply IH. intros acc [= <-]. split; [done|].
      intros c'. simpl. intros [->|Hc']%elem_of_cons; [done|].
      destruct cur as [acc|]; simpl in Hc'; [|by apply elem_of_nil in Hc'].
      by apply (Hcur acc eq_refl).
Qed.

Lemma split_tokens (s x : string) : x ∈ split s → token x.
Proof. apply split_go_tokens. by intros acc. Qed.

(** ** The loader *)

(** X1: a rule line that has not exactly three tokens makes [load_automata]
    fail with the format message, whatever else the file holds: the rules
    are read before anything is checked. *)
Theorem load_automata_format_error (file : list string) :
  ¬ well_formed file →
  load_automata file = Raise (ValueError (msg_prefix +:+ msg_format)).
Proof.
  intros Hwf. unfold load_automata. rewrite load_body_eq.
  by rewrite (read_rules_ill_formed _ [] Hwf).
Qed.

Lemma load_automata_format_error_witness :
  ¬ well_formed short_rule_file ∧
  load_automata short_rule_file
  = Raise (ValueError (msg_prefix +:+ msg_format)).
Proof.
  assert (¬ well_formed short_rule_file) as Hwf.
  { apply (bool_decide_unpack _). vm_compute. exact I. }
  split; [exact Hwf|].
  exact (load_automata_format_error short_rule_file Hwf).
Defined.

(** X2: a file of fewer than four lines, the empty file included, is
    refused with the message of the initial state: the missing lines read
    as empty ones, and the empty name is no token of the line of states. *)
Theorem load_automata_short_file (file : list string) :
  length file < 4 →
  load_automata file = Raise (ValueError (msg_prefix +:+ msg_initial)).
Proof.
  intros Hlen. unfold load_automata. rewrite load_body_eq.
  rewrite drop_ge by lia. simpl.
  assert (initial_token file = "") as Hi.
  { unfold initial_token, line. by rewrite lookup_ge_None_2 by lia. }
  rewrite decide_False; [done|].
  rewrite Hi. intros [? _]%split_tokens. done.
Qed.

Lemma load_automata_short_file_witness :
  length (@nil string) < 4 ∧
  load_automata [] = Raise (ValueError (msg_prefix +:+ msg_initial)).
Proof.
  assert (length (@nil string) < 4) as Hlen by (simpl; lia).
  split; [exact Hlen|].
  exact (load_automata_short_file [] Hlen).
Defined.

(** X3: every name of an automaton that [load_automata] returns (its
    symbols, its states, its final states, its initial state) is a token:
    not empty and free of blanks. *)
Theorem load_automata_names_are_tokens (file : list string)
    (a : automaton (list string)) :
  load_automata file = Ok a →
  Forall token (alphabet a) ∧ Forall token (states a) ∧
  Forall token (final_states a) ∧ token (initial_state a).
Proof.
  intros (Ha & Hs & Hf & Hi & _ & Hinit & _)%load_automata_fields.
  rewrite Ha, Hs, Hf, Hi.
  split_and!; try (apply Forall_forall; intros x; apply split_tokens).
  by apply split_tokens in Hinit.
Qed.

Lemma load_automata_names_are_tokens_witness :
  load_automata example_file = Ok example_automaton ∧
  token (initial_state example_automaton).
Proof.
  split; [exact load_example|].
  exact (proj2 (proj2 (proj2
    (load_automata_names_are_tokens example_file _ load_example)))).
Defined.

Lemma read_rules_destinations lines t t' o s :
  read_rules lines t = Ok t' →
  default [] (dget o t' ≫= dget s) =
  default [] (dget o t ≫= dget s)
  ++ omap (rule_destination o s) ((λ l, split (strip l)) <$> lines).
Proof.
  revert t. induction lines as [|line lines IH]; intros t; csimpl.
  - intros [= <-]. by rewrite app_nil_r.
  - destruct (split (strip line)) as [|o0 [|s0 [|d0 [|? ?]]]] eqn:Hparts;
      try done.
    intros Hrd. rewrite (IH _ Hrd), add_rule_lookup. simpl.
    destruct (decide (o0 = o ∧ s0 = s)) as [[-> ->]|Hne].
    + rewrite decide_True by done. simpl. by rewrite <-app_assoc.
    + rewrite decide_False by (intros [-> ->]; by apply Hne). done.
Qed.

(** X4: the table of a loaded automaton gives to an origin and a symbol the
    destinations of their rules, in the order of the file and as often as
    the file repeats them, and no entry where the file has no rule. *)
Theorem load_automata_keeps_rules (file : list string)
    (a : automaton (list string)) (o s : string) :
  load_automata file = Ok a →
  transition a o s =
  match rule_destinations file o s with
  | [] => None
  | dests => Some dests
  end.
Proof.
  intros Hload. pose proof (load_automata_table_ok _ _ Hload) as [_ Hrows].
  apply load_automata_fields in Hload as (_ & _ & _ & _ & Hrd & _).
  pose proof (read_rules_destinations _ _ _ o s Hrd) as Hd. simpl in Hd.
  unfold rule_destinations, rules. rewrite <-Hd. unfold transition.
  destruct (dget o (transitions a)) as [row|] eqn:Ho; simpl; [|done].
  destruct (dget s row) as [l|] eqn:Hs; simpl; [|done].
  destruct (Hrows _ _ Ho) as (_ & _ & Hl). specialize (Hl _ _ Hs).
  by destruct l.
Qed.

Lemma load_automata_keeps_rules_witness :
  ∃ a, load_automata nfa_file = Ok a ∧
       transition a "s" "a" = Some ["t"; "u"; "t"].
Proof.
  destruct (load_automata nfa_file) as [a|e] eqn:Hload.
  - exists a. split; [reflexivity|].
    exact (load_automata_keeps_rules nfa_file a "s" "a" Hload).
  - exfalso. revert Hload. vm_compute. discriminate.
Defined.

(** X5: the dictionaries of a loaded automaton have distinct keys, no
    empty row and no empty list of destinations, so that [process] never
    raises on it and returns the classification of each word. *)
Theorem load_automata_then_process (file : list string)
    (a : automaton (list string)) (words : list (list string)) :
  load_automata file = Ok a →
  NoDup (keys (transitions a)) ∧
  (∀ o row, (o, row) ∈ transitions a →
     NoDup (keys row) ∧ row ≠ [] ∧ ∀ s l, (s, l) ∈ row → l ≠ []) ∧
  process a words = Ok ((λ w, tag (classify a w)) <$> words).
Proof.
  intros Hload. pose proof (load_automata_table_ok _ _ Hload) as [Hnd Hrows].
  split_and!; [done| |].
  - intros o row Ho. apply elem_of_dget in Ho; [|done].
    destruct (Hrows _ _ Ho) as (Hndr & Hne & Hl). split_and!; [done..|].
    intros s l Hs. apply (Hl s). by apply elem_of_dget.
  - apply process_classify. by apply (load_automata_valid file).
Qed.

Lemma load_automata_then_process_witness :
  load_automata example_file = Ok example_automaton ∧
  process example_automaton [["a"; "b"]; ["c"]]
  = Ok ((λ w, tag (classify example_automaton w)) <$> [["a"; "b"]; ["c"]]).
Proof.
  split; [exact load_example|].
  exact (proj2 (proj2 (load_automata_then_process example_file _
    [["a"; "b"]; ["c"]] load_example))).
Defined.

(** ** The simulator *)

Section process_more.
Context {V : Type} `{!Seq V}.
Implicit Types (a : automaton V) (q : string).

(** The results so far are only ever appended to. *)
Lemma for_symbols_results a word q results :
  for_symbols a word q results =
  bind (for_symbols a word q [])
       (λ '(q', is_valid, rs), Ok (q', is_valid, results ++ rs)).
Proof.
  revert q. induction word as [|symbol rest IH]; intros q; simpl.
  - by rewrite app_nil_r.
  - case_decide; [|done].
    destruct (dget q (transitions a)) as [row|]; [|done].
    destruct (dget symbol row) as [v|]; [|done].
    destruct (getitem0 v) as [next|e]; simpl; [apply IH | done].
Qed.

Lemma process_word_results a word results :
  process_word a word results =
  bind (process_word a word []) (λ rs, Ok (results ++ rs)).
Proof.
  unfold process_word. rewrite for_symbols_results.
  destruct (for_symbols a word (initial_state a) []) as [[[q' v] rs]|e];
    simpl; [|done].
  destruct v; [|done]. case_decide; simpl; by rewrite app_assoc.
Qed.

Lemma for_words_results a words results :
  for_words a words results =
  bind (for_words a words []) (λ rs, Ok (results ++ rs)).
Proof.
  revert results. induction words as [|word words IH]; intros results; simpl.
  - by rewrite app_nil_r.
  - rewrite process_word_results.
    destruct (process_word a word []) as [rs|e]; simpl; [|done].
    rewrite (IH (results ++ rs)), (IH rs).
    destruct (for_words a words []) as [rs'|e]; simpl; [|done].
    by rewrite app_assoc.
Qed.

Lemma for_words_app a words1 words2 results :
  for_words a (words1 ++ words2) results =
  bind (for_words a words1 results) (for_words a words2).
Proof.
  revert results. induction words1 as [|word words1 IH]; intros results;
    simpl; [done|].
  destruct (process_word a word results) as [rs|e]; simpl; [apply IH | done].
Qed.

(** How the loop over the symbols of one word can end. *)
Lemma for_symbols_end a word q q' (is_valid : bool) rs :
  for_symbols a word q [] = Ok (q', is_valid, rs) →
  (is_valid = true ∧ rs = [] ∧ Forall (λ s, s ∈ alphabet a) word) ∨
  (is_valid = false ∧ rs = ["REJEITA"]) ∨
  (is_valid = false ∧ rs = ["INVALIDA"] ∧
   Exists (λ s, s ∉ alphabet a) word).
Proof.
  revert q. induction word as [|symbol rest IH]; intros q; simpl.
  - intros [= <- <- <-]. left. by split_and!.
  - case_decide as Hs.
    + destruct (dget q (transitions a)) as [row|];
        [|intros [= <- <- <-]; right; left; done].
      destruct (dget symbol row) as [v|];
        [|intros [= <- <- <-]; right; left; done].
      destruct (getitem0 v) as [next|e]; simpl; [|done].
      intros [(-> & -> & Hall)|[(-> & ->)|(-> & -> & Hex)]]%IH.
      * left. split_and!; [done..|]. by apply Forall_cons.
      * right; left. done.
      * right; right. split_and!; [done..|]. by apply Exists_cons_tl.
    + intros [= <- <- <-]. right; right. split_and!; [done..|].
      by apply Exists_cons_hd.
Qed.

Lemma process_word_end a word rs :
  process_word a word [] = Ok rs →
  ∃ r, rs = [r] ∧
       ((r = "ACEITA" ∧ Forall (λ s, s ∈ alphabet a) word) ∨
        r = "REJEITA" ∨
        (r = "INVALIDA" ∧ Exists (λ s, s ∉ alphabet a) word)).
Proof.
  unfold process_word.
  destruct (for_symbols a word (initial_state a) []) as [[[q' v] rs']|e]
    eqn:Hf; simpl; [|done].
  apply for_symbols_end in Hf
    as [(-> & -> & Hall)|[(-> & ->)|(-> & -> & Hex)]]; simpl.
  - case_decide; intros [= <-]; eauto.
  - intros [= <-]; eauto.
  - intros [= <-]; eauto 6.
Qed.

Lemma for_words_length a words results results' :
  for_words a words results = Ok results' →
  length results' = length results + length words.
Proof.
  revert results. induction words as [|word words IH]; intros results; simpl.
  - intros [= <-]. lia.
  - rewrite process_word_results.
    destruct (process_word a word []) as [rs|e] eqn:Hw; simpl; [|done].
    apply process_word_end in Hw as (r & -> & _).
    intros ->%IH. rewrite length_app. simpl. lia.
Qed.

(** X6: [process] treats the words of a batch one by one. Its result on
    two batches in a row is the result on the first followed by the result
    on the second, an exception of the first coming first; and what it
    returns has one entry for each word. *)
Theorem process_app a (words1 words2 : list (list string)) :
  process a (words1 ++ words2) =
    bind (process a words1) (λ results1,
    bind (process a words2) (λ results2, Ok (results1 ++ results2))) ∧
  ∀ results, process a words1 = Ok results → length results = length words1.
Proof.
  unfold process. split.
  - rewrite for_words_app.
    destruct (for_words a words1 []) as [rs|e]; simpl; [|done].
    apply for_words_results.
  - intros results ->%for_words_length. done.
Qed.

(** X7: whatever the automaton, a word that [process] accepts has all its
    symbols in the alphabet, and a word that it reports as invalid has a
    symbol outside of it. A word with an unknown symbol can be rejected
    instead: a missing transition met before that symbol ends the scan. *)
Theorem process_unknown_symbols a (word : list string) (result : string) :
  process a [word] = Ok [result] →
  (result = "ACEITA" ∨ result = "REJEITA" ∨ result = "INVALIDA") ∧
  (result = "ACEITA" → Forall (λ s, s ∈ alphabet a) word) ∧
  (result = "INVALIDA" → Exists (λ s, s ∉ alphabet a) word).
Proof.
  unfold process. simpl.
  destruct (process_word a word []) as [rs|e] eqn:Hw; simpl; [|done].
  intros [= ->].
  apply process_word_end in Hw
    as (r & [= <-] & [[-> Hall]|[->|[-> Hex]]]);
    split_and!; auto; done.
Qed.

End process_more.

Lemma process_app_witness :
  process example_automaton ([["a"; "b"]] ++ [["c"]; []])
  = Ok (["ACEITA"] ++ ["INVALIDA"; "ACEITA"]).
Proof.
  exact (proj1 (process_app example_automaton [["a"; "b"]] [["c"]; []])).
Defined.

Lemma process_unknown_symbols_witness :
  process nfa_automaton [["a"; "a"; "z"]] = Ok ["REJEITA"] ∧
  ("REJEITA" = "INVALIDA" → Exists (λ s, s ∉ alphabet nfa_automaton) ["a"; "a"; "z"]).
Proof.
  assert (process nfa_automaton [["a"; "a"; "z"]] = Ok ["REJEITA"]) as Hp
    by reflexivity.
  split; [exact Hp|].
  exact (proj2 (proj2 (process_unknown_symbols nfa_automaton ["a"; "a"; "z"]
    "REJEITA" Hp))).
Defined.

Section process_raise.
Implicit Types (a : automaton (list string)) (q : string).

Lemma for_symbols_Raise a word q results e :
  for_symbols a word q results = Raise e →
  e = IndexError ∧ ∃ o row s, (o, row) ∈ transitions a ∧ (s, []) ∈ row.
Proof.
  revert q. induction word as [|symbol rest IH]; intros q; simpl; [done|].
  case_decide; [|done].
  destruct (dget q (transitions a)) as [row|] eqn:Hq; [|done].
  destruct (dget symbol row) as [[|d l]|] eqn:Hs; simpl; [|by apply IH|done].
  intros [= <-]. split; [done|].
  exists q, row, symbol. split; by apply dget_Some_elem_of.
Qed.

Lemma for_words_Raise a words results e :
  for_words a words results = Raise e →
  e = IndexError ∧ ∃ o row s, (o, row) ∈ transitions a ∧ (s, []) ∈ row.
Proof.
  revert results. induction words as [|word words IH]; intros results; simpl;
    [done|].
  unfold process_word.
  destruct (for_symbols a word (initial_state a) results)
    as [[[q' v] rs]|e'] eqn:Hf; simpl.
  - destruct v; [case_decide|]; simpl; apply IH.
  - intros [= <-]. by apply for_symbols_Raise in Hf.
Qed.

End process_raise.

(** X8: on an automaton whose transitions hold lists, the only exception
    that [process] raises is the [IndexError] of line 95, and it takes an
    entry with an empty list of destinations for it to be raised. *)
Theorem process_raises_only_on_empty (a : automaton (list string))
    (words : list (list string)) (e : exn) :
  process a words = Raise e →
  e = IndexError ∧ ∃ o row s, (o, row) ∈ transitions a ∧ (s, []) ∈ row.
Proof. apply for_words_Raise. Qed.

Lemma process_raises_only_on_empty_witness :
  process hollow_automaton [["a"]] = Raise IndexError ∧
  ∃ o row s, (o, row) ∈ transitions hollow_automaton ∧ (s, []) ∈ row.
Proof.
  split; [exact process_hollow|].
  exact (proj2 (process_raises_only_on_empty hollow_automaton [["a"]]
    IndexError process_hollow)).
Defined.

(** ** The converter *)

Lemma get_state_name_memo l ns c id ns' c' :
  get_state_name l ns c = (id, ns', c') →
  dget (key_of l) ns' = Some id ∧
  (∀ k v, dget k ns = Some v → dget k ns' = Some v) ∧
  (∀ x, x ∈ values ns' → x ∈ values ns ∨ x = id).
Proof.
  unfold get_state_name.
  destruct (dget (key_of l) ns) as [id0|] eqn:Hd; intros [= <- <- <-].
  - split_and!; auto.
  - split_and!.
    + apply dget_dset_eq.
    + intros k v Hk. rewrite dget_dset_ne; [done|]. congruence.
    + intros x. rewrite values_dset_fresh by done.
      intros [?| ->%list_elem_of_singleton]%elem_of_app; auto.
Qed.

Section converter_memo.
Context {V : Type} `{!Seq V}.
Implicit Types (a : automaton V) (st : conv_state).

Lemma initial_conv_memo a : conv_memo a (initial_conv_state a) None.
Proof.
  rewrite initial_conv_state_eq. split; simpl.
  - by rewrite decide_True.
  - intros x ->%list_elem_of_singleton. right. apply list_elem_of_here.
  - by intros x ?%elem_of_nil.
  - intros x. split; [by intros ?%elem_of_nil | by intros [?%elem_of_nil _]].
  - done.
  - done.
Qed.

Lemma pop_memo a current stack st :
  conv_memo a st None → states_to_process st = current :: stack →
  conv_memo a
    (ConvState (new_states st) (state_counter st)
       (dset current [] (dfa_transitions st))
       (if marks_final a current
        then add current (dfa_final_states st)
        else dfa_final_states st)
       stack (add current (processed_states st)))
    (Some (current, [])).
Proof.
  intros [Hinit Hpend Hrows Hfin Hsound Hcompl] Hst. split; simpl.
  - done.
  - intros x Hx. rewrite elem_of_add.
    destruct (Hpend x Hx) as [?|Hin]; [by auto|].
    rewrite Hst in Hin. apply elem_of_cons in Hin as [->|?]; auto.
  - intros x Hx. destruct (decide (current = x)) as [->|Hne].
    + by rewrite dget_dset_eq.
    + rewrite dget_dset_ne by done. apply Hrows.
      apply elem_of_add in Hx as [?|?]; [congruence | done].
  - intros x. rewrite elem_of_add.
    destruct (marks_final a current) eqn:Hm.
    + rewrite elem_of_add, Hfin. split; [|tauto].
      intros [->|[? ?]]; auto.
    + rewrite Hfin. split; [tauto|]. intros [[->|?] ?]; [congruence | done].
  - intros o row s id. destruct (decide (current = o)) as [->|Hne].
    + rewrite dget_dset_eq. by intros [= <-].
    + rewrite dget_dset_ne by done. apply Hsound.
  - intros o row s. destruct (decide (current = o)) as [->|Hne].
    + intros _ _ _ Hin. by apply elem_of_nil in Hin.
    + rewrite dget_dset_ne by done. intros Ho Hs Halph _. by eapply Hcompl.
Qed.

Lemma symbol_step_memo a current handled st symbol :
  conv_memo a st (Some (current, handled)) →
  current ∈ processed_states st → symbol ∈ alphabet a →
  conv_memo a (symbol_step a current (split_on "," current) st symbol)
    (Some (current, handled ++ [symbol])).
Proof.
  intros [Hinit Hpend Hrows Hfin Hsound Hcompl] Hcur Hsym.
  unfold symbol_step.
  destruct (gather a (split_on "," current) symbol) as [|x l] eqn:Hg.
  { split; try done.
    intros o row s Ho Hs Halph Hb. destruct (decide (o = current)) as [->|Hne].
    - destruct (decide (s = symbol)) as [->|Hns]; [done|].
      apply (Hcompl _ _ _ Ho Hs Halph). intros _.
      pose proof (Hb eq_refl) as Hin.
      apply elem_of_app in Hin as [?| ->%list_elem_of_singleton]; done.
    - by apply (Hcompl _ _ _ Ho Hs Halph). }
  destruct (get_state_name (x :: l) (new_states st) (state_counter st))
    as [[id ns'] c'] eqn:Hgsn.
  destruct (get_state_name_memo _ _ _ _ _ _ Hgsn) as (Hid & Hgrow & Hvals).
  destruct (Hrows _ Hcur) as [row0 Hrow0]. rewrite Hrow0. simpl.
  split; simpl.
  - by apply Hgrow.
  - intros y [Hy| ->]%Hvals.
    + destruct (Hpend y Hy) as [?|?]; [by left|]. right.
      case_decide; [done | by apply list_elem_of_further].
    + case_decide; [by left | right; apply list_elem_of_here].
  - intros y Hy. destruct (decide (current = y)) as [->|Hne].
    + by rewrite dget_dset_eq.
    + rewrite dget_dset_ne by done. by apply Hrows.
  - done.
  - intros o row s id'. destruct (decide (current = o)) as [<-|Hne].
    + rewrite dget_dset_eq. intros [= <-].
      destruct (decide (symbol = s)) as [<-|Hns].
      * rewrite dget_dset_eq. intros [= <-]. rewrite Hg. by split_and!.
      * rewrite dget_dset_ne by done. intros Hs.
        destruct (Hsound _ _ _ _ Hrow0 Hs) as (? & ? & ?). auto.
    + rewrite dget_dset_ne by done. intros Ho Hs.
      destruct (Hsound _ _ _ _ Ho Hs) as (? & ? & ?). auto.
  - intros o row s. destruct (decide (current = o)) as [<-|Hne].
    + rewrite dget_dset_eq. intros [= <-].
      destruct (decide (symbol = s)) as [<-|Hns];
        [by rewrite dget_dset_eq|].
      rewrite dget_dset_ne by done. intros Hs Halph Hb.
      apply (Hcompl _ _ _ Hrow0 Hs Halph). intros _.
      pose proof (Hb eq_refl) as Hin.
      apply elem_of_app in Hin as [?| ->%list_elem_of_singleton]; done.
    + rewrite dget_dset_ne by done. intros Ho Hs Halph _.
      apply (Hcompl _ _ _ Ho Hs Halph). done.
Qed.

End converter_memo.

Section converter_memo_loop.
Context {V : Type} `{!Seq V}.
Implicit Types (a : automaton V) (st : conv_state).

Lemma symbol_step_processed a current cs st symbol :
  processed_states (symbol_step a current cs st symbol) = processed_states st.
Proof.
  unfold symbol_step. destruct (gather a cs symbol); [done|].
  by destruct (get_state_name _ _ _) as [[? ?] ?].
Qed.

Lemma fold_symbols_memo a current handled syms st :
  conv_memo a st (Some (current, handled)) →
  current ∈ processed_states st →
  (∀ s, s ∈ syms → s ∈ alphabet a) →
  conv_memo a (foldl (symbol_step a current (split_on "," current)) st syms)
    (Some (current, handled ++ syms)).
Proof.
  revert handled st. induction syms as [|s syms IH];
    intros handled st Hmemo Hcur Hsyms; simpl.
  - by rewrite app_nil_r.
  - replace (handled ++ s :: syms) with ((handled ++ [s]) ++ syms)
      by (by rewrite <-app_assoc).
    apply IH.
    + apply symbol_step_memo; [done..|]. apply Hsyms, list_elem_of_here.
    + by rewrite symbol_step_processed.
    + intros s' ?. by apply Hsyms, list_elem_of_further.
Qed.

Lemma iteration_memo a current stack st :
  conv_memo a st None → states_to_process st = current :: stack →
  conv_memo a (iteration a current stack st) None.
Proof.
  intros Hmemo Hst. unfold iteration.
  pose proof (pop_memo a current stack st Hmemo Hst) as Hpop.
  unfold marks_final in Hpop.
  eapply (fold_symbols_memo a current [] (alphabet a)) in Hpop; [|..].
  - destruct Hpop as [Hinit Hpend Hrows Hfin Hsound Hcompl].
    split; try done.
    intros o row s Ho Hs Halph _. by apply (Hcompl _ _ _ Ho Hs Halph).
  - simpl. apply elem_of_add. by left.
  - done.
Qed.

Lemma while_loop_memo a fuel st st' :
  while_loop fuel a st = Some st' → conv_memo a st None →
  conv_memo a st' None.
Proof.
  revert st. induction fuel as [|fuel IH]; intros st; simpl;
    destruct (states_to_process st) as [|current stack] eqn:Hst; try done.
  - by intros [= <-].
  - by intros [= <-].
  - intros Hw Hmemo. apply (IH _ Hw). by apply iteration_memo.
Qed.

(** The state in which the loop of [convert_to_dfa] ends. *)
Lemma convert_to_dfa_final_state a :
  ∃ st, convert_to_dfa a = Some (result a (fresh_name 0) st) ∧
        conv_inv a st ∧ conv_memo a st None ∧ states_to_process st = [].
Proof.
  destruct (convert_to_dfa_result a) as (st & Hw & Hinv & Hst & Hc).
  exists st. split_and!; try done.
  apply (while_loop_memo _ _ _ _ Hw), initial_conv_memo.
Qed.

End converter_memo_loop.

(** *** Identifiers have no comma and differ from one another *)

Lemma pretty_N_char_digit (x : N) : pretty_N_char x ≠ ","%char.
Proof. unfold pretty_N_char. by repeat case_match. Qed.

Lemma pretty_N_go_no_comma (x : N) (s : string) :
  (∀ c, c ∈ characters s → c ≠ ","%char) →
  ∀ c, c ∈ characters (pretty_N_go x s) → c ≠ ","%char.
Proof.
  revert s. induction (N.lt_wf_0 x) as [x _ IH]; intros s Hs.
  destruct (decide (0 < x)%N) as [Hx|Hx].
  - rewrite pretty_N_go_step by done. apply IH; [apply N.div_lt; lia|].
    intros c. simpl. intros [->|?]%elem_of_cons; [|by auto].
    apply pretty_N_char_digit.
  - assert (x = 0%N) as -> by lia. by rewrite pretty_N_go_0.
Qed.

Lemma fresh_name_no_comma (n : nat) (c : ascii) :
  c ∈ characters (fresh_name n) → c ≠ ","%char.
Proof.
  rewrite fresh_name_eq. simpl. intros [->|Hc]%elem_of_cons; [done|].
  revert c Hc. unfold pretty, pretty_nat, pretty, pretty_N.
  case_decide.
  - simpl. intros c [->|?%elem_of_nil]%elem_of_cons; done.
  - apply pretty_N_go_no_comma. by intros c ?%elem_of_nil.
Qed.

Lemma split_on_go_no_sep (sep : ascii) (cur s : string) :
  (∀ c, c ∈ characters s → c ≠ sep) →
  split_on_go sep cur s = [String.rev (String.rev_app s cur)].
Proof.
  revert cur. induction s as [|c s IH]; intros cur Hs; simpl; [done|].
  rewrite decide_False by (apply Hs; simpl; apply list_elem_of_here).
  apply IH. intros c' ?. apply Hs. simpl. by apply list_elem_of_further.
Qed.

Lemma split_on_no_sep (sep : ascii) (s : string) :
  (∀ c, c ∈ characters s → c ≠ sep) → split_on sep s = [s].
Proof.
  intros Hs. unfold split_on. rewrite split_on_go_no_sep by done.
  f_equal. apply rev_rev.
Qed.

Lemma split_on_fresh_name (n : nat) :
  split_on "," (fresh_name n) = [fresh_name n].
Proof. apply split_on_no_sep, fresh_name_no_comma. Qed.

Lemma fresh_name_inj (n m : nat) : fresh_name n = fresh_name m → n = m.
Proof. rewrite !fresh_name_eq. intros [= Hp]. by apply (inj pretty). Qed.

(** *** What [convert_to_dfa] returns *)

(** X9: the states of the automaton that [convert_to_dfa] returns are the
    identifiers [q0], [q1], ... up to some number, in this order and
    without repetition; the initial state is [q0]; and there are at most
    one more of them than there are sets of destination names. *)
Theorem convert_to_dfa_state_names {V : Type} `{!Seq V} (a : automaton V) :
  ∃ dfa n, convert_to_dfa a = Some dfa ∧
           0 < n ∧ n ≤ 1 + 2 ^ length (all_destinations a) ∧
           states dfa = fresh_name <$> seq 0 n ∧
           NoDup (states dfa) ∧ initial_state dfa = "q0".
Proof.
  destruct (convert_to_dfa_final_state a) as (st & -> & Hinv & _ & _).
  assert (NoDup (values (new_states st))) as Hnd.
  { rewrite (ci_values _ _ Hinv).
    apply NoDup_fmap_2_strong; [|apply NoDup_seq].
    intros n m _ _. apply fresh_name_inj. }
  eexists _, (state_counter st). split_and!; [done| | | |done|done].
  - apply Hinv.
  - rewrite <-length_universe.
    trans (length (values (new_states st))).
    + by rewrite (ci_values _ _ Hinv), length_fmap, length_seq.
    + by apply (conv_inv_bound a st).
  - apply Hinv.
Qed.

Section converter_output.
Context {V : Type} `{!Seq V}.
Implicit Types (a : automaton V) (st : conv_state).

Lemma final_state_rows a st o :
  conv_inv a st → conv_memo a st None → states_to_process st = [] →
  o ∈ values (new_states st) ↔ is_Some (dget o (dfa_transitions st)).
Proof.
  intros Hinv Hmemo Hst. split.
  - intros Ho. apply (cm_rows _ _ _ Hmemo).
    destruct (cm_pending _ _ _ Hmemo o Ho) as [?|Hin]; [done|].
    rewrite Hst in Hin. by apply elem_of_nil in Hin.
  - intros [row Hrow%dget_Some_elem_of].
    apply (ci_processed _ _ Hinv). by destruct (ci_rows _ _ Hinv _ _ Hrow).
Qed.

Lemma marks_final_fresh_name a (n : nat) :
  marks_final a (fresh_name n) = true ↔ fresh_name n ∈ final_states a.
Proof.
  unfold marks_final. rewrite split_on_fresh_name. simpl.
  rewrite orb_false_r. apply bool_decide_eq_true.
Qed.

Lemma final_state_finals a st f :
  conv_inv a st → conv_memo a st None → states_to_process st = [] →
  f ∈ dfa_final_states st ↔
  f ∈ values (new_states st) ∧ f ∈ final_states a.
Proof.
  intros Hinv Hmemo Hst. rewrite (cm_finals _ _ _ Hmemo).
  assert (f ∈ processed_states st ↔ f ∈ values (new_states st)) as ->.
  { split; [apply Hinv|]. intros Hf.
    destruct (cm_pending _ _ _ Hmemo f Hf) as [?|Hin]; [done|].
    rewrite Hst in Hin. by apply elem_of_nil in Hin. }
  split; intros [Hf Hm]; (split; [done|]);
    pose proof Hf as Hf'; rewrite (ci_values _ _ Hinv) in Hf';
    apply list_elem_of_fmap in Hf' as (n & -> & _);
    by apply marks_final_fresh_name.
Qed.

Lemma final_state_transitions a st o s :
  conv_inv a st → conv_memo a st None → states_to_process st = [] →
  o ∈ values (new_states st) →
  dget o (dfa_transitions st) ≫= dget s =
  if decide (s ∈ alphabet a) then
    match gather a [o] s with
    | [] => None
    | next_states => dget (key_of next_states) (new_states st)
    end
  else None.
Proof.
  intros Hinv Hmemo Hst Ho.
  assert (split_on "," o = [o]) as Hsplit.
  { rewrite (ci_values _ _ Hinv) in Ho.
    apply list_elem_of_fmap in Ho as (n & -> & _).
    apply split_on_fresh_name. }
  destruct (proj1 (final_state_rows a st o Hinv Hmemo Hst) Ho) as [row Hrow].
  rewrite Hrow. simpl.
  destruct (dget s row) as [id|] eqn:Hs.
  - destruct (cm_sound _ _ _ Hmemo _ _ _ _ Hrow Hs) as (Halph & Hne & Hid).
    rewrite Hsplit in Hne, Hid. rewrite decide_True by done.
    by destruct (gather a [o] s).
  - case_decide as Halph; [|done].
    pose proof (cm_complete _ _ _ Hmemo _ _ _ Hrow Hs Halph I) as Hg.
    rewrite Hsplit in Hg. by rewrite Hg.
Qed.

(** Where the input gives destinations, a transition is recorded, and it
    leads to the identifier of their key. *)
Lemma final_state_entry a st o s :
  conv_inv a st → conv_memo a st None → states_to_process st = [] →
  o ∈ values (new_states st) →
  s ∈ alphabet a → gather a [o] s ≠ [] →
  ∃ id, dget (key_of (gather a [o] s)) (new_states st) = Some id ∧
        dget o (dfa_transitions st) ≫= dget s = Some id.
Proof.
  intros Hinv Hmemo Hst Ho Halph Hne.
  pose proof (final_state_transitions a st o s Hinv Hmemo Hst Ho) as Heq.
  rewrite decide_True in Heq by done.
  assert (split_on "," o = [o]) as Hsplit.
  { rewrite (ci_values _ _ Hinv) in Ho.
    apply list_elem_of_fmap in Ho as (n & -> & _).
    apply split_on_fresh_name. }
  destruct (proj1 (final_state_rows a st o Hinv Hmemo Hst) Ho) as [row Hrow].
  destruct (dget s row) as [id|] eqn:Hs.
  - destruct (cm_sound _ _ _ Hmemo _ _ _ _ Hrow Hs) as (_ & _ & Hid).
    rewrite Hsplit in Hid. exists id. split; [done|]. by rewrite Hrow.
  - pose proof (cm_complete _ _ _ Hmemo _ _ _ Hrow Hs Halph I) as Hg.
    rewrite Hsplit in Hg. done.
Qed.



End converter_output.

(** X10: in the automaton that [convert_to_dfa] returns every state has a
    row in the table, be it an empty one, and only states have one; and a
    state is final exactly when the input automaton has a final state of
    the same name as the identifier. *)
Theorem convert_to_dfa_rows_and_finals {V : Type} `{!Seq V}
    (a : automaton V) (dfa : automaton string) :
  convert_to_dfa a = Some dfa →
  (∀ o, o ∈ states dfa ↔ is_Some (dget o (transitions dfa))) ∧
  (∀ f, f ∈ final_states dfa ↔ f ∈ states dfa ∧ f ∈ final_states a).
Proof.
  destruct (convert_to_dfa_final_state a) as (st & -> & Hinv & Hmemo & Hst).
  intros [= <-]. simpl. split.
  - intros o. by apply (final_state_rows a).
  - intros f. by apply (final_state_finals a).
Qed.

Lemma convert_to_dfa_rows_and_finals_witness :
  convert_to_dfa example_automaton = Some example_dfa ∧
  ∀ f, f ∈ final_states example_dfa ↔
       f ∈ states example_dfa ∧ f ∈ final_states example_automaton.
Proof.
  split; [exact convert_example|].
  exact (proj2 (convert_to_dfa_rows_and_finals example_automaton example_dfa
    convert_example)).
Defined.



Section process_converted.
Implicit Types (dfa : automaton string).

(** From the state [q], which no converted automaton has, nothing is
    accepted. *)
Lemma for_symbols_from_q dfa (word results : list string) :
  dget "q" (transitions dfa) = None → "q" ∉ final_states dfa →
  bind (for_symbols dfa word "q" results) (conclude dfa)
    = Ok (results ++ ["REJEITA"]) ∨
  bind (for_symbols dfa word "q" results) (conclude dfa)
    = Ok (results ++ ["INVALIDA"]).
Proof.
  intros Hq Hf. destruct word as [|symbol rest]; simpl.
  - left. by rewrite decide_False.
  - case_decide; [left | right]; [by rewrite Hq | done].
Qed.

Lemma process_word_converted dfa (word : list string) :
  (∀ o row, (o, row) ∈ transitions dfa → o ≠ "q") →
  (∀ o row s v, (o, row) ∈ transitions dfa → (s, v) ∈ row →
     ∃ n, v = fresh_name n) →
  "q" ∉ final_states dfa →
  word ≠ [] →
  process_word dfa word [] = Ok ["REJEITA"] ∨
  process_word dfa word [] = Ok ["INVALIDA"].
Proof.
  intros Horig Hdest Hfin Hword.
  assert (dget "q" (transitions dfa) = None) as Hq.
  { destruct (dget "q" (transitions dfa)) as [row|] eqn:Hrow; [|done].
    apply dget_Some_elem_of in Hrow. by destruct (Horig _ _ Hrow). }
  destruct word as [|symbol rest]; [done|].
  unfold process_word. simpl.
  case_decide; [|by right].
  destruct (dget (initial_state dfa) (transitions dfa)) as [row|] eqn:Hrow;
    [|by left].
  destruct (dget symbol row) as [v|] eqn:Hv; [|by left].
  destruct (Hdest _ _ _ _ (dget_Some_elem_of _ _ _ Hrow)
              (dget_Some_elem_of _ _ _ Hv)) as [n ->].
  rewrite fresh_name_eq. simpl. by apply (for_symbols_from_q dfa rest []).
Qed.

End process_converted.

(** X12: on an automaton that [convert_to_dfa] returns, [process] never
    raises and never accepts a word that is not empty: after one symbol
    its current state is [q], where nothing is defined. The empty word is
    accepted exactly when the input automaton has a final state named
    [q0]. *)
Theorem process_on_converted {V : Type} `{!Seq V} (a : automaton V)
    (dfa : automaton string) :
  convert_to_dfa a = Some dfa →
  process dfa [[]]
    = Ok [if decide ("q0" ∈ final_states a) then "ACEITA" else "REJEITA"] ∧
  ∀ word, word ≠ [] →
    process dfa [word] = Ok ["REJEITA"] ∨ process dfa [word] = Ok ["INVALIDA"].
Proof.
  destruct (convert_to_dfa_final_state a) as (st & -> & Hinv & Hmemo & Hst).
  intros [= <-]. split.
  - unfold process. simpl.
    pose proof (final_state_finals a st "q0" Hinv Hmemo Hst) as Hf.
    assert ("q0" ∈ values (new_states st)) as H0.
    { apply (ci_processed _ _ Hinv).
      pose proof (cm_initial _ _ _ Hmemo) as Hi%dget_Some_elem_of.
      destruct (cm_pending _ _ _ Hmemo "q0") as [?|Hin]; [|done|].
      - apply list_elem_of_fmap. by exists (key_of [initial_state a], "q0").
      - rewrite Hst in Hin. by apply elem_of_nil in Hin. }
    unfold process_word. cbn [for_symbols initial_state result conclude bind].
    change (fresh_name 0) with "q0". cbn [dfa_final_states final_states].
    destruct (decide ("q0" ∈ final_states a)) as [Hin'|Hnot'].
    + rewrite decide_True; [done|]. by apply Hf.
    + rewrite decide_False; [done|]. by intros [_ ?]%Hf.
  - intros word Hword. unfold process. simpl.
    assert (∀ x, x ∈ values (new_states st) → x ≠ "q") as Hvals.
    { intros x. rewrite (ci_values _ _ Hinv).
      intros (n & -> & _)%list_elem_of_fmap. apply fresh_name_not_q. }
    destruct (process_word_converted (result a (fresh_name 0) st) word)
      as [-> | ->]; simpl; auto.
    + intros o row Ho. apply Hvals, (ci_processed _ _ Hinv).
      by destruct (ci_rows _ _ Hinv _ _ Ho).
    + intros o row s v. apply (result_destination_fresh a st _ _ _ _ Hinv).
    + intros Hq. apply (Hvals "q"); [|done].
      by apply (ci_processed _ _ Hinv), (ci_finals _ _ Hinv).
Qed.

Lemma process_on_converted_witness :
  convert_to_dfa example_automaton = Some example_dfa ∧
  process example_dfa [[]] = Ok ["ACEITA"] ∧
  (process example_dfa [["a"; "b"]] = Ok ["REJEITA"] ∨
   process example_dfa [["a"; "b"]] = Ok ["INVALIDA"]).
Proof.
  split; [exact convert_example|].
  destruct (process_on_converted example_automaton example_dfa convert_example)
    as [Hempty Hword].
  split; [exact Hempty|].
  apply Hword. discriminate.
Defined.

(** X13: [get_state_name] memoises by content. Asked again for the same
    names, in whatever order, it returns the identifier it returned first
    and changes neither the memo nor the counter. *)
Theorem get_state_name_memoises (l l' : list string) (ns : dict string)
    (c : nat) (id : string) (ns' : dict string) (c' : nat) :
  get_state_name l ns c = (id, ns', c') →
  l ≡ₚ l' →
  get_state_name l' ns' c' = (id, ns', c').
Proof.
  intros Hg Hp. destruct (get_state_name_memo _ _ _ _ _ _ Hg) as (Hid & _).
  unfold get_state_name, key_of in *.
  by rewrite <-(sorted_Permutation l l' Hp), Hid.
Qed.

Lemma get_state_name_memoises_witness :
  get_state_name ["q2"; "q1"] [("q0", "q0")] 1
    = ("q1", [("q0", "q0"); ("q1,q2", "q1")], 2) ∧
  get_state_name ["q1"; "q2"] [("q0", "q0"); ("q1,q2", "q1")] 2
    = ("q1", [("q0", "q0"); ("q1,q2", "q1")], 2).
Proof.
  assert (get_state_name ["q2"; "q1"] [("q0", "q0")] 1
          = ("q1", [("q0", "q0"); ("q1,q2", "q1")], 2)) as Hg
    by (vm_compute; reflexivity).
  split; [exact Hg|].
  apply (get_state_name_memoises ["q2"; "q1"] ["q1"; "q2"] _ _ _ _ _ Hg).
  apply Permutation_swap.
Defined.

(** *** Converting twice *)

Section convert_twice.

Lemma converted_shape_result {V : Type} `{!Seq V} (a : automaton V)
    (st : conv_state) :
  conv_inv a st → converted_shape (result a (fresh_name 0) st).
Proof.
  intros Hinv.
  assert (∀ x, x ∈ values (new_states st) → x ≠ "q") as Hvals.
  { intros x. rewrite (ci_values _ _ Hinv).
    intros (n & -> & _)%list_elem_of_fmap. apply fresh_name_not_q. }
  split_and!; simpl.
  - intros o row Ho. apply Hvals, (ci_processed _ _ Hinv).
    by destruct (ci_rows _ _ Hinv _ _ Ho).
  - intros o row s v. apply (result_destination_fresh a st _ _ _ _ Hinv).
  - intros Hq. apply (Hvals "q"); [|done].
    by apply (ci_processed _ _ Hinv), (ci_finals _ _ Hinv).
Qed.

(** On automata of that shape [process] sees the alphabet, whether [q0] is
    final and which symbols have a transition from [q0], and nothing else. *)
Lemma process_word_shape (d1 d2 : automaton string) (word : list string) :
  converted_shape d1 → converted_shape d2 →
  alphabet d1 = alphabet d2 →
  initial_state d1 = initial_state d2 →
  (initial_state d1 ∈ final_states d1 ↔ initial_state d2 ∈ final_states d2) →
  (∀ s, is_Some (dget (initial_state d1) (transitions d1) ≫= dget s) ↔
        is_Some (dget (initial_state d2) (transitions d2) ≫= dget s)) →
  process_word d1 word [] = process_word d2 word [].
Proof.
  intros (Ho1 & Hd1 & Hf1) (Ho2 & Hd2 & Hf2) Halph Hinit Hfin Hfirst.
  assert (∀ d : automaton string,
            (∀ o row, (o, row) ∈ transitions d → o ≠ "q") →
            dget "q" (transitions d) = None) as Hq.
  { intros d Ho. destruct (dget "q" (transitions d)) as [row|] eqn:Hrow;
      [|done].
    apply dget_Some_elem_of in Hrow. by destruct (Ho _ _ Hrow). }
  assert (∀ rest,
    bind (for_symbols d1 rest "q" []) (conclude d1)
    = bind (for_symbols d2 rest "q" []) (conclude d2)) as Hrest.
  { intros [|s rest]; simpl.
    - by rewrite !decide_False.
    - rewrite <-Halph. case_decide; [|done]. by rewrite !Hq. }
  unfold process_word. destruct word as [|s rest]; simpl.
  - destruct (decide (initial_state d1 ∈ final_states d1)) as [H1|H1].
    + by rewrite decide_True by (by apply Hfin).
    + by rewrite decide_False by (by rewrite <-Hfin).
  - rewrite <-Halph. case_decide; [|done].
    specialize (Hfirst s).
    destruct (dget (initial_state d1) (transitions d1)) as [row1|] eqn:Hr1;
      destruct (dget (initial_state d2) (transitions d2)) as [row2|] eqn:Hr2;
      simpl in *.
    + destruct (dget s row1) as [v1|] eqn:Hv1;
        destruct (dget s row2) as [v2|] eqn:Hv2; simpl.
      * destruct (Hd1 _ _ _ _ (dget_Some_elem_of _ _ _ Hr1)
                    (dget_Some_elem_of _ _ _ Hv1)) as [n1 ->].
        destruct (Hd2 _ _ _ _ (dget_Some_elem_of _ _ _ Hr2)
                    (dget_Some_elem_of _ _ _ Hv2)) as [n2 ->].
        rewrite !fresh_name_eq. simpl. apply Hrest.
      * destruct (proj1 Hfirst) as [? ?]; [eauto | done].
      * destruct (proj2 Hfirst) as [? ?]; [eauto | done].
      * done.
    + destruct (dget s row1) as [v1|] eqn:Hv1; simpl; [|done].
      destruct (proj1 Hfirst) as [? ?]; [eauto | done].
    + destruct (dget s row2) as [v2|] eqn:Hv2; simpl; [|done].
      destruct (proj2 Hfirst) as [? ?]; [eauto | done].
    + done.
Qed.

Lemma for_words_shape (d1 d2 : automaton string)
    (words : list (list string)) :
  (∀ word, process_word d1 word [] = process_word d2 word []) →
  for_words d1 words [] = for_words d2 words [].
Proof.
  intros Hw. induction words as [|word words IH]; simpl; [done|].
  rewrite Hw. destruct (process_word d2 word []) as [rs|e]; simpl; [|done].
  rewrite (for_words_results d1), (for_words_results d2). by rewrite IH.
Qed.

Lemma update_not_nil (x : string) (xs : list string) :
  update (x :: xs) [] ≠ [].
Proof.
  intros Hnil. assert (x ∈ update (x :: xs) []) as Hx.
  { apply elem_of_update. left. apply list_elem_of_here. }
  rewrite Hnil in Hx. by apply elem_of_nil in Hx.
Qed.

End convert_twice.

Lemma gather_singleton {V : Type} `{!Seq V} (a : automaton V) (o s : string) :
  gather a [o] s =
  match dget o (transitions a) ≫= dget s with
  | Some v => update (iter v) []
  | None => []
  end.
Proof.
  unfold gather. simpl. destruct (dget o (transitions a)) as [row|]; [|done].
  simpl. by destruct (dget s row).
Qed.

(** X14: converting a converted automaton changes nothing that [process]
    can see: on every batch of words it returns on the second conversion
    what it returns on the first. *)
Theorem convert_twice_same_process {V : Type} `{!Seq V} (a : automaton V)
    (dfa1 dfa2 : automaton string) (words : list (list string)) :
  convert_to_dfa a = Some dfa1 →
  convert_to_dfa dfa1 = Some dfa2 →
  process dfa2 words = process dfa1 words.
Proof.
  destruct (convert_to_dfa_final_state a) as (st1 & -> & Hinv1 & Hmemo1 & Hst1).
  intros [= <-]. set (d1 := result a (fresh_name 0) st1).
  destruct (convert_to_dfa_final_state d1) as (st2 & -> & Hinv2 & Hmemo2 & Hst2).
  intros [= <-]. unfold process. apply for_words_shape. intros word.
  assert (fresh_name 0 ∈ values (new_states st2)) as H0.
  { rewrite (ci_values _ _ Hinv2). apply list_elem_of_fmap.
    exists 0. split; [done|]. apply elem_of_seq.
    pose proof (ci_counter _ _ Hinv2). lia. }
  apply process_word_shape; try (by apply converted_shape_result); try done.
  - simpl. rewrite (final_state_finals d1 st2 _ Hinv2 Hmemo2 Hst2). tauto.
  - intros s. cbn [initial_state transitions result].
    destruct (proj1 (final_state_rows d1 st2 _ Hinv2 Hmemo2 Hst2) H0)
      as [row2 Hrow2].
    rewrite Hrow2. simpl. split.
    + intros [id Hs].
      destruct (cm_sound _ _ _ Hmemo2 _ _ _ _ Hrow2 Hs) as (_ & Hne & _).
      rewrite split_on_fresh_name, gather_singleton in Hne.
      cbn [transitions d1 result] in Hne.
      by destruct (dget (fresh_name 0) (dfa_transitions st1) ≫= dget s).
    + intros [v Hv].
      destruct (dget s row2) as [id|] eqn:Hs; [by eauto|]. exfalso.
      destruct (dget (fresh_name 0) (dfa_transitions st1)) as [row1|] eqn:Hrow1;
        [|done].
      simpl in Hv.
      destruct (ci_rows _ _ Hinv1 _ _ (dget_Some_elem_of _ _ _ Hrow1))
        as (_ & _ & Hrow).
      destruct (Hrow _ _ (dget_Some_elem_of _ _ _ Hv)) as [Halph _].
      destruct (result_destination_fresh a st1 _ _ _ _ Hinv1
                  (dget_Some_elem_of _ _ _ Hrow1)
                  (dget_Some_elem_of _ _ _ Hv)) as [n ->].
      pose proof (cm_complete _ _ _ Hmemo2 _ _ _ Hrow2 Hs Halph I) as Hg.
      rewrite split_on_fresh_name, gather_singleton in Hg.
      cbn [transitions d1 result] in Hg. rewrite Hrow1 in Hg. simpl in Hg.
      rewrite Hv in Hg. rewrite fresh_name_eq in Hg.
      by apply update_not_nil in Hg.
Qed.

Lemma convert_twice_same_process_witness :
  convert_to_dfa example_automaton = Some example_dfa ∧
  ∃ dfa2, convert_to_dfa example_dfa = Some dfa2 ∧
          process dfa2 [["a"]; []] = process example_dfa [["a"]; []].
Proof.
  split; [exact convert_example|].
  destruct (convert_to_dfa_result example_dfa) as (st & _ & _ & _ & Hc).
  exists (result example_dfa (fresh_name 0) st). split; [exact Hc|].
  exact (convert_twice_same_process example_automaton example_dfa _
    [["a"]; []] convert_example Hc).
Defined.

(** ** Blanks around a line *)

Lemma rev_app_append (s acc : string) :
  String.rev_app s acc = String.rev s +:+ acc.
Proof.
  unfold String.rev. revert acc. induction s as [|c s IH]; intros acc; simpl.
  - done.
  - rewrite (IH (String c acc)), (IH (String c "")).
    generalize (String.rev_app s "") as r. intros r.
    induction r as [|c' r IHr]; [done|].
    unfold String.app in *. simpl. by rewrite IHr.
Qed.

Lemma rev_app_of_append (x y acc : string) :
  String.rev_app (x +:+ y) acc = String.rev_app y (String.rev_app x acc).
Proof.
  revert acc. induction x as [|c x IH]; intros acc; [done|].
  unfold String.app in *. simpl. apply IH.
Qed.

Lemma rev_append (x y : string) :
  String.rev (x +:+ y) = String.rev y +:+ String.rev x.
Proof.
  unfold String.rev at 1. rewrite rev_app_of_append. apply rev_app_append.
Qed.

Lemma lstrip_blanks (s : string) :
  ∃ b, (∀ c, c ∈ characters b → isspace c = true) ∧ s = b +:+ lstrip s.
Proof.
  induction s as [|c s (b & Hb & IH)]; simpl.
  - exists "". split; [by intros c ?%elem_of_nil | done].
  - destruct (isspace c) eqn:Hc.
    + exists (String c b). split.
      * intros c'. simpl. intros [->|?]%elem_of_cons; auto.
      * unfold String.app in *. simpl. by rewrite <-IH.
    + exists "". split; [by intros c' ?%elem_of_nil | done].
Qed.

Lemma split_go_lstrip (s : string) :
  split_go None (lstrip s) = split_go None s.
Proof.
  induction s as [|c s IH]; simpl; [done|].
  destruct (isspace c) eqn:Hc; simpl; [done|]. by rewrite Hc.
Qed.

Lemma split_go_blanks (cur : option string) (b : string) :
  (∀ c, c ∈ characters b → isspace c = true) →
  split_go cur b = option_list (String.rev <$> cur).
Proof.
  revert cur. induction b as [|c b IH]; intros cur Hb; simpl; [done|].
  rewrite (Hb c) by (simpl; apply list_elem_of_here).
  rewrite (IH None); [by rewrite app_nil_r|].
  intros c' ?. apply Hb. simpl. by apply list_elem_of_further.
Qed.

Lemma split_go_trailing (cur : option string) (s b : string) :
  (∀ c, c ∈ characters b → isspace c = true) →
  split_go cur (s +:+ b) = split_go cur s.
Proof.
  intros Hb. revert cur. induction s as [|c s IH]; intros cur.
  - by apply split_go_blanks.
  - unfold String.app in *. simpl. by rewrite !IH.
Qed.

(** X15: [strip()] before [split()] changes nothing, so the tokens that the
    loader reads from a line are those of the line as it stands, blanks at
    its ends included. *)
Theorem split_strip (s : string) : split (strip s) = split s.
Proof.
  unfold split, strip. rewrite <-(split_go_lstrip s).
  destruct (lstrip_blanks (String.rev (lstrip s))) as (b & Hb & Heq).
  set (u := lstrip (String.rev (lstrip s))) in *.
  assert (lstrip s = String.rev u +:+ String.rev b) as ->.
  { by rewrite <-rev_append, <-Heq, rev_rev. }
  symmetry. apply split_go_trailing.
  intros c [Hc|Hc]%characters_rev_app; [auto | by apply elem_of_nil in Hc].
Qed.

(** ** More on the simulator *)

Section first_destination.
Implicit Types (a : automaton (list string)) (q : string).

Lemma for_symbols_first_destination a1 a2 word q results :
  (∀ s, s ∈ alphabet a1 ↔ s ∈ alphabet a2) →
  (∀ q s, first_destination a1 q s = first_destination a2 q s) →
  for_symbols a1 word q results = for_symbols a2 word q results.
Proof.
  intros Halph Hfirst. revert q.
  induction word as [|symbol rest IH]; intros q; simpl; [done|].
  destruct (decide (symbol ∈ alphabet a1)) as [Hs|Hs].
  - rewrite (decide_True (P := symbol ∈ alphabet a2)) by (by apply Halph).
    specialize (Hfirst q symbol). unfold first_destination, transition in Hfirst.
    destruct (dget q (transitions a1)) as [row1|];
      destruct (dget q (transitions a2)) as [row2|]; simpl in Hfirst.
    + destruct (dget symbol row1) as [[|d1 l1]|];
        destruct (dget symbol row2) as [[|d2 l2]|]; simplify_eq/=;
        first [done | apply IH].
    + destruct (dget symbol row1) as [[|d1 l1]|]; simplify_eq/=; done.
    + destruct (dget symbol row2) as [[|d2 l2]|]; simplify_eq/=; done.
    + done.
  - rewrite (decide_False (P := symbol ∈ alphabet a2)); [done|].
    by rewrite <-Halph.
Qed.

End first_destination.

(** X16: [process] reads of each list of destinations its first element
    only. Two automata with the same symbols, initial state and final
    states whose transitions agree on the first destination (and on where
    there is none) get the same results, errors included, on every batch
    of words. *)
Theorem process_first_destination_only (a1 a2 : automaton (list string))
    (words : list (list string)) :
  (∀ s, s ∈ alphabet a1 ↔ s ∈ alphabet a2) →
  initial_state a1 = initial_state a2 →
  (∀ q, q ∈ final_states a1 ↔ q ∈ final_states a2) →
  (∀ q s, first_destination a1 q s = first_destination a2 q s) →
  process a1 words = process a2 words.
Proof.
  intros Halph Hinit Hfin Hfirst. unfold process. generalize (@nil string).
  induction words as [|word words IH]; intros results; simpl; [done|].
  unfold process_word.
  rewrite (for_symbols_first_destination a1 a2) by done. rewrite Hinit.
  destruct (for_symbols a2 word (initial_state a2) results)
    as [[[q' v] rs]|e]; simpl; [|done].
  destruct v; simpl; [|apply IH].
  destruct (decide (q' ∈ final_states a1)) as [Hq|Hq].
  - rewrite (decide_True (P := q' ∈ final_states a2)) by (by apply Hfin).
    apply IH.
  - rewrite (decide_False (P := q' ∈ final_states a2)) by (by rewrite <-Hfin).
    apply IH.
Qed.

Lemma process_first_destination_only_witness :
  (∀ q s, first_destination nfa_automaton q s
          = first_destination nfa_first_automaton q s) ∧
  process nfa_automaton [["a"; "b"]] = process nfa_first_automaton [["a"; "b"]].
Proof.
  assert (∀ q s, first_destination nfa_automaton q s
                 = first_destination nfa_first_automaton q s) as Hfirst.
  { intros q s. unfold first_destination, transition. simpl.
    repeat (case_decide; simpl; try reflexivity). }
  split; [exact Hfirst|].
  apply process_first_destination_only; [tauto | reflexivity | tauto | exact Hfirst].
Defined.

(** ** A conversion that yields one state *)

Lemma fold_symbols_nothing {V : Type} `{!Seq V} (a : automaton V)
    (current : string) (cs syms : list string) (st : conv_state) :
  (∀ s, gather a cs s = []) →
  foldl (symbol_step a current cs) st syms = st.
Proof.
  intros Hg. induction syms as [|s syms IH]; simpl; [done|].
  unfold symbol_step at 2. by rewrite Hg.
Qed.

(** X17: when the input has no transitions from a state named [q0], the
    conversion returns the automaton of the single state [q0] without any
    transition, whatever the initial state and the rules of the input:
    the loop looks the identifier [q0] up among the input's states. That
    state is final exactly when the input has a final state named [q0]. *)
Theorem convert_to_dfa_without_q0 {V : Type} `{!Seq V} (a : automaton V) :
  dget "q0" (transitions a) = None →
  convert_to_dfa a =
  Some (Automaton (alphabet a) ["q0"]
          (if decide ("q0" ∈ final_states a) then ["q0"] else [])
          "q0" [("q0", [])]).
Proof.
  intros Hq0. unfold convert_to_dfa, fuel_bound.
  rewrite convert_with_fuel_eq, initial_conv_state_eq.
  change (fresh_name 0) with "q0".
  cbn [Nat.add while_loop states_to_process]. unfold iteration.
  change (split_on "," "q0") with ["q0"].
  rewrite fold_symbols_nothing.
  2:{ intros s. by rewrite gather_singleton, Hq0. }
  cbn [existsb orb new_states state_counter dfa_transitions dfa_final_states
       processed_states dset].
  set (n := length (alphabet a) * _).
  assert (∀ st, states_to_process st = [] → while_loop n a st = Some st) as Hw.
  { intros st Hst. destruct n; simpl; by rewrite Hst. }
  rewrite Hw by done. simpl. unfold result. simpl. do 2 f_equal.
  rewrite orb_false_r.
  destruct (decide ("q0" ∈ final_states a)) as [Hin|Hnot].
  - by rewrite bool_decide_eq_true_2.
  - by rewrite bool_decide_eq_false_2.
Qed.

Lemma convert_to_dfa_without_q0_witness :
  dget "q0" (transitions ab_automaton) = None ∧
  convert_to_dfa ab_automaton
  = Some (Automaton ["a"] ["q0"] [] "q0" [("q0", [])]).
Proof.
  split; [reflexivity|].
  exact (convert_to_dfa_without_q0 ab_automaton eq_refl).
Defined.

(** * Lemmas for the claims *)

(** ** Words and the states they lead to *)

Lemma classify_from_run (a : automaton (list string)) (q q' : string)
    (pre word : list string) :
  run a q pre = Some q' →
  classify_from a q (pre ++ word) = classify_from a q' word.
Proof.
  revert q. induction pre as [|symbol pre IH]; intros q; simpl.
  - by intros [= ->].
  - case_decide; [|done].
    destruct (transition a q symbol) as [[|first l]|]; [done| |done].
    simpl. apply IH.
Qed.

Lemma for_symbols_run (a : automaton (list string)) (q q' : string)
    (word results : list string) :
  run a q word = Some q' →
  for_symbols a word q results = Ok (q', true, results).
Proof.
  revert q. induction word as [|symbol rest IH]; intros q; simpl.
  - by intros [= ->].
  - case_decide; [|done]. unfold transition.
    destruct (dget q (transitions a)) as [row|]; simpl; [|done].
    destruct (dget symbol row) as [[|first l]|]; simpl; [done| |done].
    apply IH.
Qed.

(** ** Processing a state again *)

Section again.
Context {V : Type} `{!Seq V}.
Implicit Types (a : automaton V) (st : conv_state).

Lemma symbol_step_known a current cs st symbol :
  gather a cs symbol = [] ∨
    is_Some (dget (key_of (gather a cs symbol)) (new_states st)) →
  new_states (symbol_step a current cs st symbol) = new_states st ∧
  state_counter (symbol_step a current cs st symbol) = state_counter st.
Proof.
  unfold symbol_step, get_state_name.
  destruct (gather a cs symbol) as [|x l]; [done|].
  intros [?|[id Hid]]; [done|]. by rewrite Hid.
Qed.

Lemma fold_symbols_known a current cs syms st :
  (∀ s, s ∈ syms →
     gather a cs s = [] ∨
     is_Some (dget (key_of (gather a cs s)) (new_states st))) →
  new_states (foldl (symbol_step a current cs) st syms) = new_states st ∧
  state_counter (foldl (symbol_step a current cs) st syms) = state_counter st.
Proof.
  revert st. induction syms as [|s syms IH]; intros st Hknown; simpl; [done|].
  destruct (symbol_step_known a current cs st s) as [Hns Hc];
    [apply Hknown, list_elem_of_here|].
  destruct (IH (symbol_step a current cs st s)) as [Hns' Hc'].
  { intros s' Hs'. rewrite Hns. by apply Hknown, list_elem_of_further. }
  split; congruence.
Qed.

Lemma symbol_step_finals a current cs st symbol :
  dfa_final_states (symbol_step a current cs st symbol) = dfa_final_states st.
Proof.
  unfold symbol_step. destruct (gather a cs symbol); [done|].
  by destruct (get_state_name _ _ _) as [[? ?] ?].
Qed.

Lemma symbol_step_origins a current cs st symbol o :
  is_Some (dget current (dfa_transitions st)) →
  is_Some (dget o (dfa_transitions (symbol_step a current cs st symbol))) ↔
  is_Some (dget o (dfa_transitions st)).
Proof.
  intros Hcur. unfold symbol_step. destruct (gather a cs symbol); [done|].
  destruct (get_state_name _ _ _) as [[? ?] ?]. simpl.
  destruct (decide (current = o)) as [<-|Hne].
  - rewrite dget_dset_eq. split; [done | eauto].
  - by rewrite dget_dset_ne.
Qed.

Lemma fold_symbols_rest a current cs syms st o :
  is_Some (dget current (dfa_transitions st)) →
  let st' := foldl (symbol_step a current cs) st syms in
  processed_states st' = processed_states st ∧
  dfa_final_states st' = dfa_final_states st ∧
  (is_Some (dget o (dfa_transitions st')) ↔
   is_Some (dget o (dfa_transitions st))).
Proof.
  revert st. induction syms as [|s syms IH]; intros st Hcur; simpl; [done|].
  destruct (IH (symbol_step a current cs st s)) as (Hp & Hf & Ho).
  { by apply symbol_step_origins. }
  rewrite Hp, Hf, Ho, symbol_step_processed, symbol_step_finals.
  split_and!; [done..|]. by apply symbol_step_origins.
Qed.

(** An iteration on a state that was processed before leaves the memo, the
    counter, the processed and the final states as they are, and records
    the transitions that were recorded. *)
Lemma iteration_again a current stack st :
  conv_memo a st None → states_to_process st = current :: stack →
  current ∈ processed_states st →
  let st' := iteration a current stack st in
  new_states st' = new_states st ∧
  state_counter st' = state_counter st ∧
  processed_states st' = processed_states st ∧
  dfa_final_states st' = dfa_final_states st ∧
  ∀ o s, dget o (dfa_transitions st') ≫= dget s
         = dget o (dfa_transitions st) ≫= dget s.
Proof.
  intros Hmemo Hst Hcur.
  pose proof (iteration_memo a current stack st Hmemo Hst) as Hmemo'.
  revert Hmemo'. unfold iteration.
  set (finals := if existsb _ _ then _ else _).
  set (st1 := ConvState _ _ _ _ _ _).
  set (st' := foldl _ st1 _). intros Hmemo'.
  destruct (cm_rows _ _ _ Hmemo _ Hcur) as [row Hrow].
  assert (add current (processed_states st) = processed_states st) as Hadd.
  { unfold add. by rewrite decide_True. }
  assert (finals = dfa_final_states st) as Hfinals.
  { unfold finals. fold (marks_final a current).
    destruct (marks_final a current) eqn:Hm; [|done].
    unfold add. rewrite decide_True; [done|].
    by apply (cm_finals _ _ _ Hmemo). }
  destruct (fold_symbols_known a current (split_on "," current) (alphabet a)
              st1) as [Hns Hc].
  { intros s Hs. simpl.
    destruct (gather a (split_on "," current) s) as [|x l] eqn:Hg;
      [by left | right].
    destruct (dget s row) as [id|] eqn:Hsrow.
    - destruct (cm_sound _ _ _ Hmemo _ _ _ _ Hrow Hsrow) as (_ & _ & Hid).
      rewrite Hg in Hid. eauto.
    - pose proof (cm_complete _ _ _ Hmemo _ _ _ Hrow Hsrow Hs I). congruence. }
  assert (∀ o, is_Some (dget o (dfa_transitions st')) ↔
               is_Some (dget o (dfa_transitions st))) as Horig.
  { intros o.
    destruct (fold_symbols_rest a current (split_on "," current) (alphabet a)
                st1 o) as (_ & _ & Ho); [simpl; by rewrite dget_dset_eq|].
    etrans; [exact Ho|]. simpl.
    destruct (decide (current = o)) as [<-|Hne].
    - rewrite dget_dset_eq, Hrow. split; eauto.
    - by rewrite dget_dset_ne. }
  destruct (fold_symbols_rest a current (split_on "," current) (alphabet a)
              st1 current) as (Hp & Hf & _); [simpl; by rewrite dget_dset_eq|].
  fold st' in Hns, Hc, Hp, Hf. simpl in Hns, Hc, Hp, Hf.
  split_and!; [done | done | congruence | congruence |].
  intros o s. specialize (Horig o).
  destruct (dget o (dfa_transitions st')) as [row'|] eqn:Hrow';
    destruct (dget o (dfa_transitions st)) as [row0|] eqn:Hrow0; simpl.
  - destruct (dget s row') as [id'|] eqn:Hs'; destruct (dget s row0) as [id0|] eqn:Hs0;
      try done.
    + destruct (cm_sound _ _ _ Hmemo' _ _ _ _ Hrow' Hs') as (_ & _ & Hid').
      destruct (cm_sound _ _ _ Hmemo _ _ _ _ Hrow0 Hs0) as (_ & _ & Hid0).
      rewrite Hns in Hid'. congruence.
    + destruct (cm_sound _ _ _ Hmemo' _ _ _ _ Hrow' Hs') as (Halph & Hne & _).
      by pose proof (cm_complete _ _ _ Hmemo _ _ _ Hrow0 Hs0 Halph I).
    + destruct (cm_sound _ _ _ Hmemo _ _ _ _ Hrow0 Hs0) as (Halph & Hne & _).
      by pose proof (cm_complete _ _ _ Hmemo' _ _ _ Hrow' Hs' Halph I).
  - destruct (proj1 Horig) as [? ?]; [eauto | done].
  - destruct (proj2 Horig) as [? ?]; [eauto | done].
  - done.
Qed.

Lemma run_iterations_memo a n st :
  conv_memo a st None → conv_memo a (run_iterations n a st) None.
Proof.
  revert st. induction n as [|n IH]; intros st Hmemo; simpl; [done|].
  destruct (states_to_process st) as [|current stack] eqn:Hst; [done|].
  apply IH. by apply iteration_memo.
Qed.

End again.

(** * The claims of the specification *)

(** C1 (the code does not do this): the converted automaton is meant to
    accept the language of its input. On the automaton of the docstring,
    which has one destination for each state and symbol, [process] accepts
    the word [a b], and rejects it on what [convert_to_dfa] returns. *)
Theorem convert_to_dfa_changes_language :
  process example_automaton [["a"; "b"]] = Ok ["ACEITA"] ∧
  load_automata example_file = Ok example_automaton ∧
  convert_to_dfa example_automaton = Some example_dfa ∧
  process example_dfa [["a"; "b"]] = Ok ["REJEITA"].
Proof. split_and!; vm_compute; reflexivity. Qed.

(** C2: on an automaton of the data model [process] classifies each word as
    the specification describes: from the initial state, left to right,
    [INVALID] at the first unknown symbol, [REJECTED] at the first missing
    transition, the first destination otherwise, and membership in the final
    states once the word is consumed. *)
Theorem process_word_classifies (a : automaton (list string))
    (word : list string) (results : list string) :
  valid a →
  process_word a word results = Ok (results ++ [tag (classify a word)]) ∧
  ∀ words, process a words = Ok ((λ w, tag (classify a w)) <$> words).
Proof.
  intros Hv. split; [by apply process_word_classify|].
  intros words. by apply process_classify.
Qed.

Lemma process_word_classifies_witness :
  valid example_automaton ∧
  process_word example_automaton ["a"; "b"] [] = Ok ["ACEITA"].
Proof.
  assert (valid example_automaton) as Hv.
  { exact (load_automata_valid example_file _ load_example). }
  split; [exact Hv|].
  exact (proj1 (process_word_classifies example_automaton ["a"; "b"] [] Hv)).
Defined.

(** C3: every automaton that [load_automata] returns, and every automaton
    that [convert_to_dfa] returns on whatever input, satisfies the four
    structural invariants: the initial state and the final states are
    states, the origins and destinations of the transitions are states, and
    their symbols are in the alphabet. *)
Theorem automata_satisfy_invariants :
  (∀ file a, load_automata file = Ok a → invariants a) ∧
  (∀ (V : Type) (S : Seq V) (a : automaton V),
     ∃ dfa, convert_to_dfa a = Some dfa ∧ invariants dfa).
Proof.
  split; [apply load_automata_invariants|].
  intros V S a. destruct (convert_to_dfa_result a) as (st & _ & Hinv & _ & ->).
  eexists. split; [done|]. by apply result_invariants.
Qed.

Lemma automata_satisfy_invariants_witness :
  load_automata example_file = Ok example_automaton ∧
  invariants example_automaton ∧
  ∃ dfa, convert_to_dfa example_automaton = Some dfa ∧ invariants dfa.
Proof.
  split; [exact load_example|].
  split.
  - exact (proj1 automata_satisfy_invariants example_file _ load_example).
  - exact (proj2 automata_satisfy_invariants _ _ example_automaton).
Defined.

(** C4 (the code does not do this): the transition recorded for a state
    taken from the worklist is meant to lead to the union of the states
    reached from the members of the set that the state denotes. The worklist
    holds identifiers, and line 135 splits the identifier as if it were the
    key: on [ab_automaton] the identifier [q0] is minted for the key [A], the
    member [A] reaches [B] on [a], and the converter, looking up the name
    [q0] instead, records no transition at all. *)
Theorem converter_splits_identifier_not_key :
  ∃ st,
    while_loop (fuel_bound ab_automaton) ab_automaton
      (initial_conv_state ab_automaton) = Some st ∧
    new_states st = [("A", "q0")] ∧
    gather ab_automaton (split_on "," "A") "a" = ["B"] ∧
    gather ab_automaton (split_on "," "q0") "a" = [] ∧
    dget "q0" (dfa_transitions st) = Some [] ∧
    convert_to_dfa ab_automaton
    = Some (Automaton ["a"] ["q0"] [] "q0" [("q0", [])]).
Proof. eexists. split_and!; vm_compute; reflexivity. Qed.

(** C5, as the code has it: the loader keeps the tokens of the first two
    lines as they stand, so the states (and the symbols) of the automaton it
    returns are pairwise distinct exactly when the file names each once. *)
Theorem load_automata_keeps_tokens (file : list string)
    (a : automaton (list string)) :
  load_automata file = Ok a →
  states a = states_tokens file ∧ alphabet a = alphabet_tokens file ∧
  (NoDup (states a) ↔ NoDup (states_tokens file)) ∧
  (NoDup (alphabet a) ↔ NoDup (alphabet_tokens file)).
Proof.
  intros (Ha & Hs & _)%load_automata_fields. by rewrite Ha, Hs.
Qed.

Lemma load_automata_keeps_tokens_witness :
  load_automata example_file = Ok example_automaton ∧
  states example_automaton = states_tokens example_file.
Proof.
  split; [exact load_example|].
  exact (proj1 (load_automata_keeps_tokens example_file _ load_example)).
Defined.

(** C5 does not hold as stated: a file that names a state and a symbol twice
    is accepted, and the automaton returned has them twice. *)
Lemma load_automata_accepts_duplicates :
  ∃ a, load_automata duplicate_file = Ok a ∧
       ¬ NoDup (states a) ∧ ¬ NoDup (alphabet a).
Proof.
  exists (Automaton ["a"; "a"] ["q0"; "q0"] ["q0"] "q0" []).
  split; [vm_compute; reflexivity|].
  split; simpl; intros [Hn _]%NoDup_cons; apply Hn, list_elem_of_here.
Qed.

(** C6: whatever its input, [convert_to_dfa] returns an automaton over the
    same alphabet whose table relates each state and symbol to one
    destination at most. *)
Theorem convert_to_dfa_deterministic {V : Type} `{!Seq V} (a : automaton V) :
  ∃ dfa, convert_to_dfa a = Some dfa ∧
         alphabet dfa = alphabet a ∧
         ∀ o s d1 d2, delta dfa o s d1 → delta dfa o s d2 → d1 = d2.
Proof.
  destruct (convert_to_dfa_result a) as (st & _ & Hinv & _ & ->).
  eexists. split_and!; [done..|].
  intros o s d1 d2. by apply result_deterministic.
Qed.

(** C7: on a file whose rule lines have three tokens each, [load_automata]
    returns an automaton exactly when the initial state, the final states
    and the origins and destinations of the rules are declared states and
    the symbols of the rules are in the alphabet, and the automaton returned
    satisfies the invariants. Otherwise it raises an error whose message
    tells which condition failed, the initial state being checked first and
    the final states second; the messages differ from one another. *)
Theorem load_automata_structural_errors (file : list string) :
  well_formed file →
  ((∃ a, load_automata file = Ok a) ↔
     initial_ok file ∧ finals_ok file ∧ origins_ok file ∧
     destinations_ok file ∧ symbols_ok file) ∧
  (∀ a, load_automata file = Ok a → invariants a) ∧
  ((∃ a, load_automata file = Ok a) ∨
   (∃ msg, load_automata file = Raise (ValueError (msg_prefix +:+ msg)) ∧
      ((msg = msg_initial ∧ ¬ initial_ok file) ∨
       (msg = msg_final ∧ ¬ finals_ok file) ∨
       (msg = msg_origin ∧ ¬ origins_ok file) ∨
       (msg = msg_symbol ∧ ¬ symbols_ok file) ∨
       (msg = msg_destination ∧ ¬ destinations_ok file)))) ∧
  (¬ initial_ok file →
   load_automata file = Raise (ValueError (msg_prefix +:+ msg_initial))) ∧
  (initial_ok file → ¬ finals_ok file →
   load_automata file = Raise (ValueError (msg_prefix +:+ msg_final))) ∧
  NoDup [msg_initial; msg_final; msg_origin; msg_symbol; msg_destination].
Proof.
  intros Hwf. destruct (read_rules_file file Hwf) as (t & Hrd & Hok & Hrules).
  assert (∀ sts alph : list string, (∀ o s d, has_rule t o s d → o ∈ sts ∧ s ∈ alph ∧ d ∈ sts)
    ↔ (∀ o s d, [o; s; d] ∈ rules file → o ∈ sts)
      ∧ (∀ o s d, [o; s; d] ∈ rules file → d ∈ sts)
      ∧ (∀ o s d, [o; s; d] ∈ rules file → s ∈ alph)) as Hall.
  { intros sts alph. split.
    - intros H. split_and!; intros o s d Hr%Hrules;
        by destruct (H _ _ _ Hr) as (? & ? & ?).
    - intros (Ho & Hd & Hs) o s d Hr%Hrules. split_and!; eauto. }
  unfold load_automata. rewrite load_body_eq, Hrd. simpl.
  unfold initial_ok, finals_ok, origins_ok, destinations_ok, symbols_ok.
  split_and!.
  - case_decide as Hi; [|split; [by intros [? ?] | by intros [? _]]].
    destruct (check_finals _ _) as [[]|e] eqn:Hf; simpl.
    + rewrite check_finals_Ok in Hf.
      destruct (check_transitions _ _ _) as [[]|e] eqn:Hc; simpl.
      * rewrite (check_transitions_rules_Ok _ _ _ Hok), Hall in Hc.
        split; [by intros _ | eauto].
      * split; [by destruct e; intros [? ?]|]. intros (_ & _ & Ho & Hd & Hs).
        assert (check_transitions t (alphabet_tokens file) (states_tokens file)
                = Ok ()) as Hc'; [|congruence].
        apply (check_transitions_rules_Ok _ _ _ Hok), Hall. auto.
    + split; [by destruct e; intros [? ?]|]. intros (_ & Hfin & _).
      rewrite <-check_finals_Ok in Hfin. congruence.
  - intros a Ha. apply (load_automata_invariants file).
    unfold load_automata. by rewrite load_body_eq, Hrd.
  - case_decide as Hi; [|right; exists msg_initial; auto].
    destruct (check_finals _ _) as [[]|e] eqn:Hf; simpl.
    + destruct (check_transitions _ _ _) as [[]|e] eqn:Hc; simpl; [by eauto|].
      right.
      apply (check_transitions_rules_Raise _ _ _ _ Hok) in Hc
        as [(-> & o & s & d & Hr%Hrules & Hn)
           |[(-> & o & s & d & Hr%Hrules & Hn)
            |(-> & o & s & d & Hr%Hrules & Hn)]].
      * exists msg_origin. split; [done|]. do 2 right; left.
        split; [done|]. intros H. by apply Hn, (H o s d).
      * exists msg_symbol. split; [done|]. do 3 right; left.
        split; [done|]. intros H. by apply Hn, (H o s d).
      * exists msg_destination. split; [done|]. do 4 right.
        split; [done|]. intros H. by apply Hn, (H o s d).
    + right. pose proof (check_finals_Raise _ _ _ Hf) as ->.
      exists msg_final. split; [done|]. right; left. split; [done|].
      intros Hfin. rewrite <-check_finals_Ok in Hfin. congruence.
  - intros Hi. by rewrite decide_False.
  - intros Hi Hfin. rewrite decide_True by done.
    destruct (check_finals _ _) as [[]|e] eqn:Hf; simpl.
    + by rewrite check_finals_Ok in Hf.
    + by rewrite (check_finals_Raise _ _ _ Hf).
  - apply (bool_decide_unpack _). vm_compute. exact I.
Qed.

Lemma load_automata_structural_errors_witness :
  well_formed example_file ∧
  ((∃ a, load_automata example_file = Ok a) ↔
     initial_ok example_file ∧ finals_ok example_file ∧
     origins_ok example_file ∧ destinations_ok example_file ∧
     symbols_ok example_file).
Proof.
  assert (well_formed example_file) as Hwf.
  { apply (bool_decide_unpack _). vm_compute. exact I. }
  split; [exact Hwf|].
  exact (proj1 (load_automata_structural_errors example_file Hwf)).
Defined.

(** C8, as the code has it: whatever its input, [convert_to_dfa] ends,
    within [fuel_bound] iterations of its loop, a number that counts the
    subsets of the destination names once per symbol. The visited set is
    [processed_states], not the mapping from keys to identifiers: an
    identifier is appended to the worklist only while it is not in that set,
    the state being processed included. An identifier can thus stand on the
    worklist twice; the iteration that takes it a second time leaves the
    memo, the counter, the processed and the final states as they are and
    records the transitions that were recorded. *)
Theorem convert_to_dfa_terminates {V : Type} `{!Seq V} (a : automaton V) :
  (∃ dfa, convert_to_dfa a = Some dfa ∧
          ∀ fuel, fuel_bound a ≤ fuel → convert_with_fuel fuel a = Some dfa) ∧
  (∀ n current stack y,
     states_to_process (run_iterations n a (initial_conv_state a))
       = current :: stack →
     y ∈ pushed a current stack (run_iterations n a (initial_conv_state a)) →
     y ∉ add current
           (processed_states (run_iterations n a (initial_conv_state a)))) ∧
  (∀ n current stack,
     let st := run_iterations n a (initial_conv_state a) in
     let st' := iteration a current stack st in
     states_to_process st = current :: stack →
     current ∈ processed_states st →
     new_states st' = new_states st ∧
     state_counter st' = state_counter st ∧
     processed_states st' = processed_states st ∧
     dfa_final_states st' = dfa_final_states st ∧
     ∀ o s, dget o (dfa_transitions st') ≫= dget s
            = dget o (dfa_transitions st) ≫= dget s).
Proof.
  split_and!.
  - destruct (convert_to_dfa_result a) as (st & Hw & _ & _ & ->).
    eexists. split; [done|]. intros fuel Hle.
    rewrite convert_with_fuel_eq.
    by rewrite (while_loop_more_fuel _ _ _ _ _ Hw Hle).
  - intros n current stack y. apply pushed_not_processed.
    apply run_iterations_inv, initial_conv_inv.
  - intros n current stack st st'. apply iteration_again.
    apply run_iterations_memo, initial_conv_memo.
Qed.

Lemma convert_to_dfa_terminates_witness :
  states_to_process
    (run_iterations 4 example_automaton (initial_conv_state example_automaton))
    = ["q1"] ∧
  "q1" ∈ processed_states
    (run_iterations 4 example_automaton (initial_conv_state example_automaton)) ∧
  new_states
    (iteration example_automaton "q1" []
       (run_iterations 4 example_automaton
          (initial_conv_state example_automaton)))
  = new_states
      (run_iterations 4 example_automaton
         (initial_conv_state example_automaton)).
Proof.
  assert (states_to_process
            (run_iterations 4 example_automaton
               (initial_conv_state example_automaton)) = ["q1"]) as Hst
    by (vm_compute; reflexivity).
  assert ("q1" ∈ processed_states
            (run_iterations 4 example_automaton
               (initial_conv_state example_automaton))) as Hin.
  { apply (bool_decide_unpack _). vm_compute. exact I. }
  split; [exact Hst|]. split; [exact Hin|].
  exact (proj1 (proj2 (proj2 (convert_to_dfa_terminates example_automaton))
    4 "q1" [] Hst Hin)).
Defined.

(** C8 does not hold as stated: on the automaton of the docstring the
    identifier [q1] is appended to the worklist twice during the first three
    iterations, once from [q0] and once from [q3], before it is processed. *)
Lemma worklist_enqueues_twice :
  enqueued 3 example_automaton (initial_conv_state example_automaton)
    = ["q2"; "q1"; "q3"; "q1"] ∧
  ¬ NoDup (enqueued 3 example_automaton (initial_conv_state example_automaton)).
Proof.
  assert (enqueued 3 example_automaton (initial_conv_state example_automaton)
          = ["q2"; "q1"; "q3"; "q1"]) as Heq by (vm_compute; reflexivity).
  split; [exact Heq|]. rewrite Heq.
  intros (_ & [Hn _]%NoDup_cons)%NoDup_cons. apply Hn.
  apply list_elem_of_further, list_elem_of_here.
Qed.

(** C9: on an automaton of the data model neither operation raises.
    [process] returns for each word of the batch one of the three outcomes,
    the one that the classification gives: [INVALIDA] when the first symbol
    that ends the scan is an unknown one, wherever it stands in the word,
    [REJEITA] when it is a known symbol without a transition from the state
    reached, and the verdict of the final states when the word is scanned
    to its end. [convert_to_dfa] returns an automaton, in which a state has
    a transition on a symbol exactly when the symbol is in the alphabet and
    the input has a transition on it from the state of the same name: a
    missing transition is recorded as no transition. *)
Theorem process_and_convert_total (a : automaton (list string))
    (words : list (list string)) :
  valid a →
  process a words = Ok ((λ w, tag (classify a w)) <$> words) ∧
  Forall (λ r, r ∈ ["ACEITA"; "REJEITA"; "INVALIDA"])
         ((λ w, tag (classify a w)) <$> words) ∧
  (∀ pre symbol rest q,
     run a (initial_state a) pre = Some q → symbol ∉ alphabet a →
     process a [pre ++ symbol :: rest] = Ok ["INVALIDA"]) ∧
  (∀ pre symbol rest q,
     run a (initial_state a) pre = Some q → symbol ∈ alphabet a →
     transition a q symbol = None →
     process a [pre ++ symbol :: rest] = Ok ["REJEITA"]) ∧
  (∀ word q,
     run a (initial_state a) word = Some q →
     process a [word]
     = Ok [if decide (q ∈ final_states a) then "ACEITA" else "REJEITA"]) ∧
  (∃ dfa, convert_to_dfa a = Some dfa ∧
     ∀ o s, o ∈ states dfa →
       is_Some (dget o (transitions dfa) ≫= dget s) ↔
       s ∈ alphabet a ∧ is_Some (transition a o s)).
Proof.
  intros Hv. split_and!.
  - by apply process_classify.
  - apply Forall_fmap, Forall_true. intros word. simpl.
    destruct (classify a word); simpl;
      repeat first [apply list_elem_of_here | apply list_elem_of_further].
  - intros pre symbol rest q Hrun Hs. rewrite process_classify by done.
    unfold classify. simpl. rewrite (classify_from_run _ _ _ _ _ Hrun).
    simpl. by rewrite decide_False.
  - intros pre symbol rest q Hrun Hs Ht. rewrite process_classify by done.
    unfold classify. simpl. rewrite (classify_from_run _ _ _ _ _ Hrun).
    simpl. by rewrite decide_True, Ht.
  - intros word q Hrun. rewrite process_classify by done.
    unfold classify. simpl.
    rewrite <-(app_nil_r word), (classify_from_run _ _ _ _ _ Hrun). simpl.
    by case_decide.
  - destruct (convert_to_dfa_final_state a) as (st & -> & Hinv & Hmemo & Hst).
    eexists. split; [done|]. simpl. intros o s Ho.
    assert (gather a [o] s ≠ [] ↔ is_Some (transition a o s)) as Hg.
    { rewrite gather_singleton. unfold transition.
      destruct (dget o (transitions a)) as [row|] eqn:Hrow; simpl.
      - destruct (dget s row) as [l|] eqn:Hl; simpl.
        + split; [eauto|]. intros _. destruct l as [|x l].
          * by destruct (Hv o row s []); auto using dget_Some_elem_of.
          * apply update_not_nil.
        + split; [done | by intros [? ?]].
      - split; [done | by intros [? ?]]. }
    split.
    + intros [id Hid].
      rewrite (final_state_transitions a st o s Hinv Hmemo Hst Ho) in Hid.
      case_decide; [|done]. split; [done|]. apply Hg.
      by destruct (gather a [o] s).
    + intros [Halph Ht%Hg].
      destruct (final_state_entry a st o s Hinv Hmemo Hst Ho Halph Ht)
        as (id & _ & ->). eauto.
Qed.

Lemma process_and_convert_total_witness :
  valid nfa_automaton ∧
  process nfa_automaton [["a"; "c"; "b"]] = Ok ["INVALIDA"] ∧
  process nfa_automaton [["a"; "a"; "b"]] = Ok ["REJEITA"] ∧
  process nfa_automaton [["a"; "b"]] = Ok ["ACEITA"] ∧
  ∃ dfa, convert_to_dfa nfa_automaton = Some dfa ∧ "q0" ∈ states dfa ∧
         dget "q0" (transitions dfa) ≫= dget "a" = None.
Proof.
  assert (valid nfa_automaton) as Hv.
  { exact (load_automata_valid nfa_file _ load_nfa). }
  assert ("c" ∉ alphabet nfa_automaton) as Hc.
  { apply (bool_decide_unpack _). vm_compute. exact I. }
  assert ("a" ∈ alphabet nfa_automaton) as Ha.
  { apply (bool_decide_unpack _). vm_compute. exact I. }
  destruct (process_and_convert_total nfa_automaton [] Hv)
    as (_ & _ & Hinvalid & Hrejected & Hend & dfa & Hdfa & Hrows).
  split; [exact Hv|].
  split; [exact (Hinvalid ["a"] "c" ["b"] "t" eq_refl Hc)|].
  split; [exact (Hrejected ["a"] "a" ["b"] "t" eq_refl Ha eq_refl)|].
  split; [exact (Hend ["a"; "b"] "u" eq_refl)|].
  exists dfa. split; [exact Hdfa|].
  assert ("q0" ∈ states dfa) as Hq0.
  { assert (convert_to_dfa nfa_automaton
            = Some (Automaton ["a"; "b"] ["q0"] [] "q0" [("q0", [])])) as Hval
      by (vm_compute; reflexivity).
    rewrite Hval in Hdfa. injection Hdfa as <-. apply list_elem_of_here. }
  split; [exact Hq0|].
  destruct (dget "q0" (transitions dfa) ≫= dget "a") as [id|] eqn:Hid;
    [|reflexivity].
  destruct (proj1 (Hrows "q0" "a" Hq0)) as [_ [l Hl]];
    [rewrite Hid; eauto | discriminate Hl].
Defined.

(** C10: in an automaton returned by [convert_to_dfa] a transition holds an
    identifier, the letter q followed by a number, where [process] expects a
    list. The step of [process] takes its element 0, the first character of
    the string that the transition holds: after the symbol the current
    state is the one-character string [q], which is not the identifier, the
    word is still valid and nothing is appended; and as [q] has no
    transitions, a second symbol of the alphabet is rejected there. *)
Theorem process_takes_first_character {V : Type} `{!Seq V} (a : automaton V)
    (dfa : automaton string) (current symbol dest : string)
    (row : dict string) (rest results : list string) :
  convert_to_dfa a = Some dfa →
  symbol ∈ alphabet dfa →
  dget current (transitions dfa) = Some row →
  dget symbol row = Some dest →
  (∃ n : nat, dest = "q" +:+ pretty n) ∧
  getitem0 dest = Ok "q" ∧
  for_symbols dfa [symbol] current results = Ok ("q", true, results) ∧
  for_symbols dfa (symbol :: rest) current results
    = for_symbols dfa rest "q" results ∧
  (∀ symbol', symbol' ∈ alphabet dfa →
     for_symbols dfa (symbol :: symbol' :: rest) current results
     = Ok ("q", false, results ++ ["REJEITA"])) ∧
  dest ≠ "q" ∧
  (∀ (d : automaton string) (q s : string) (c : ascii) (tl : string)
     (row' : dict string),
     s ∈ alphabet d → dget q (transitions d) = Some row' →
     dget s row' = Some (String c tl) →
     for_symbols d [s] q results = Ok (String c "", true, results)).
Proof.
  intros Hc Hsym Hrow Hdest.
  destruct (convert_to_dfa_result a) as (st & _ & Hinv & _ & Hc').
  rewrite Hc' in Hc. injection Hc as <-.
  destruct (converted_shape_result a st Hinv) as (Horig & _ & _).
  simpl in *.
  destruct (result_destination_fresh a st current row symbol dest Hinv)
    as [n ->]; [by apply dget_Some_elem_of..|].
  split_and!.
  - by exists n.
  - done.
  - by rewrite decide_True, Hrow, Hdest by done.
  - by rewrite decide_True, Hrow, Hdest by done.
  - intros symbol' Hsym'. rewrite decide_True, Hrow, Hdest by done.
    rewrite fresh_name_eq. simpl. rewrite decide_True by done.
    destruct (dget "q" (dfa_transitions st)) as [row'|] eqn:Hq; [|done].
    apply dget_Some_elem_of in Hq. by destruct (Horig _ _ Hq).
  - apply fresh_name_not_q.
  - intros d q s c tl row' Hs Hq Hv. simpl.
    by rewrite decide_True, Hq, Hv by done.
Qed.

Lemma process_takes_first_character_witness :
  convert_to_dfa example_automaton = Some example_dfa ∧
  for_symbols example_dfa ["a"] "q0" [] = Ok ("q", true, []) ∧
  for_symbols example_dfa ["a"; "b"] "q0" [] = Ok ("q", false, ["REJEITA"]).
Proof.
  split; [exact convert_example|].
  assert ("a" ∈ alphabet example_dfa) as Ha.
  { apply (bool_decide_unpack _). vm_compute. exact I. }
  assert ("b" ∈ alphabet example_dfa) as Hb.
  { apply (bool_decide_unpack _). vm_compute. exact I. }
  destruct (process_takes_first_character example_automaton
    example_dfa "q0" "a" "q1" [("a", "q1"); ("b", "q2")] [] []
    convert_example Ha eq_refl eq_refl) as (_ & _ & Hone & _ & Htwo & _).
  split; [exact Hone | exact (Htwo "b" Hb)].
Defined.
